(** * gtsam/matlab.h: the [gtsam::utilities] helpers of the MATLAB wrapper

    A shallow embedding of the functions of [matlab.h] (key builders,
    matrix extraction, perturbation, projection-factor assembly,
    reprojection errors and [localToWorld]) together with the properties
    the specification states about them.

    Conventions.
    - [double] is kept abstract: no property below depends on floating
      point arithmetic, only on which values are moved where.
    - A C++ exception is a value of [exception]; a function that can throw
      returns an [outcome], and a [void] function that mutates an argument
      returns the final state of that argument next to its [outcome].
    - A default argument is an [option] whose [None] selects the default. *)

From Stdlib Require Import Ascii.
From stdpp Require Import base numbers option list gmap strings sorting.

(** ** Exceptions and outcomes *)

(** [Key] is [size_t] on a 64-bit platform. *)
Definition Key : Type := N.

Definition wrap64 (n : N) : N := (n mod 2 ^ 64)%N.

Inductive exception : Type :=
| invalid_argument (what : string)
| ValuesKeyAlreadyExists (j : Key)
| ValuesKeyDoesNotExist (operation : string) (j : Key)
| ValuesIncorrectType (j : Key).

Inductive outcome (A : Type) : Type :=
| Ok (a : A)
| Throw (e : exception).
Arguments Ok {A} a.
Arguments Throw {A} e.

#[global] Instance outcome_ret : MRet outcome := λ A a, Ok a.
#[global] Instance outcome_bind : MBind outcome := λ A B f m,
  match m with
  | Ok a => f a
  | Throw e => Throw e
  end.

(** [for (...) body] over a mutable state [S]: the iteration stops at the
    first exception, and the state reached so far is what the caller sees. *)
Fixpoint for_each {A S : Type} (body : A → S → S * outcome unit)
    (l : list A) (s : S) : S * outcome unit :=
  match l with
  | [] => (s, Ok ())
  | a :: l' =>
      match body a s with
      | (s', Ok _) => for_each body l' s'
      | (s', Throw e) => (s', Throw e)
      end
  end.

(** ** Scalars, vectors and matrices *)

Class Scalar : Type := {
  double : Type;
  (** the literal [0.0] *)
  double_zero : double;
  (** the value read from storage that was never written (a freshly
      allocated Eigen matrix, an out-of-range coefficient) *)
  indeterminate : double;
  (** the integer a [double] converts to *)
  double_to_integer : double → N;
}.

(** Eigen's dynamic [Vector]. *)
Abbreviation Vector := (list double).

Section Linear.
Context `{Scalar}.

(** the implicit conversion [double] to [size_t] / [Key] *)
Definition double_to_Key (d : double) : Key := wrap64 (double_to_integer d).

Definition Vector_at (v : Vector) (i : nat) : double :=
  default indeterminate (v !! i).

Definition Vector3 (a b c : double) : Vector := [a; b; c].

(** Eigen's dynamic [Matrix], read through its coefficient accessor. *)
Record Matrix : Type := mkMatrix {
  rows : nat;
  cols : nat;
  coeff : nat → nat → double;
}.

(** [Matrix result(r, c)]: storage is allocated, not initialised. *)
Definition Matrix_new (r c : nat) : Matrix :=
  {| rows := r; cols := c; coeff := λ _ _, indeterminate |}.

(** [m.row(j).segment(start, n) = v] *)
Definition set_row_segment (j start n : nat) (v : Vector) (m : Matrix) :
    Matrix :=
  {| rows := rows m; cols := cols m;
     coeff := λ i c,
       if decide (i = j ∧ start ≤ c < start + n)%nat
       then Vector_at v (c - start) else coeff m i c |}.

(** [m.row(j) = v], for a [v] of [cols m] coefficients *)
Definition set_row (j : nat) (v : Vector) (m : Matrix) : Matrix :=
  set_row_segment j 0 (cols m) v m.

(** [m.row(j).tail(n) = v] *)
Definition set_row_tail (j n : nat) (v : Vector) (m : Matrix) : Matrix :=
  set_row_segment j (cols m - n) n v m.

(** [m.col(k) = v], for a [v] of [rows m] coefficients *)
Definition set_col (k : nat) (v : Vector) (m : Matrix) : Matrix :=
  {| rows := rows m; cols := cols m;
     coeff := λ i c,
       if decide (c = k ∧ i < rows m)%nat
       then Vector_at v i else coeff m i c |}.

Definition Matrix_row (m : Matrix) (i : nat) : Vector :=
  (λ c, coeff m i c) <$> seq 0 (cols m).

Definition Matrix_col (m : Matrix) (k : nat) : Vector :=
  (λ i, coeff m i k) <$> seq 0 (rows m).

(** the matrix as the list of its rows, and as the list of its columns *)
Definition Matrix_to_rows (m : Matrix) : list Vector :=
  Matrix_row m <$> seq 0 (rows m).

Definition Matrix_to_cols (m : Matrix) : list Vector :=
  Matrix_col m <$> seq 0 (cols m).
End Linear.

(** ** Key/Symbol codec *)

Module Symbol.
Definition keyBits : N := 64%N.
Definition chrBits : N := 8%N.
Definition indexBits : N := (keyBits - chrBits)%N.
Definition chrMask : Key := N.shiftl 255%N indexBits.
Definition indexMask : Key := N.ones indexBits.

(** Modelled from the spec: [Symbol] and [symbol] (Symbol.h is not part of
    the sources). The symbolic construction "packs an 8-bit character tag
    and an integer index into one value" of 64 bits, with "no failure
    modes beyond standard numeric overflow if index exceeds the encodable
    range": the tag occupies the top 8 bits, the index is or-ed below. *)
Definition key (c : ascii) (j : N) : Key :=
  wrap64 (N.lor (N.shiftl (N_of_ascii c) indexBits) j).

(** Modelled from the spec: decoding a symbolic key into its tag and its
    index. *)
Definition chr (k : Key) : ascii :=
  ascii_of_N (N.shiftr (N.land k chrMask) indexBits).

Definition index (k : Key) : N := N.land k indexMask.

Definition decode (k : Key) : ascii * N := (chr k, index k).
End Symbol.

(** [s[0]]: the first character, and the terminating NUL of an empty string. *)
Definition string_front (s : string) : ascii :=
  match s with
  | EmptyString => Ascii.zero
  | String c _ => c
  end.

Section Keys.
Context `{Scalar}.

(** [FastList<Key>] and [FastVector<Key>] are sequences, [FastSet<Key>] is
    a set. *)
Definition createKeyList (I : Vector) : list Key :=
  foldl (λ set d, set ++ [double_to_Key d]) [] I.

Definition createKeyList_s (s : string) (I : Vector) : list Key :=
  let c := string_front s in
  foldl (λ set d, set ++ [Symbol.key c (double_to_Key d)]) [] I.

Definition createKeyVector (I : Vector) : list Key :=
  foldl (λ set d, set ++ [double_to_Key d]) [] I.

Definition createKeyVector_s (s : string) (I : Vector) : list Key :=
  let c := string_front s in
  foldl (λ set d, set ++ [Symbol.key c (double_to_Key d)]) [] I.

Definition createKeySet (I : Vector) : gset Key :=
  foldl (λ set d, {[ double_to_Key d ]} ∪ set) ∅ I.

Definition createKeySet_s (s : string) (I : Vector) : gset Key :=
  let c := string_front s in
  foldl (λ set d, {[ Symbol.key c (double_to_Key d) ]} ∪ set) ∅ I.
End Keys.

(** ** Geometry *)

Section Points.
Context `{Scalar}.

Record Point2 : Type := mkPoint2 { Point2_x : double; Point2_y : double }.

Definition Point2_vector (p : Point2) : Vector := [Point2_x p; Point2_y p].

Record Point3 : Type :=
  mkPoint3 { Point3_x : double; Point3_y : double; Point3_z : double }.

Definition Point3_vector (p : Point3) : Vector :=
  [Point3_x p; Point3_y p; Point3_z p].
End Points.

(** Modelled from the spec: the geometry and camera library (Pose2.h,
    Pose3.h, SimpleCamera.h and the like are not part of the sources),
    consumed through the interface the spec lists: "[retract(tangentVector)
    -> sameType] on each geometric value; [compose(pose) -> pose] and
    [transformFrom(point) -> point] on 2-D poses; [backproject(pixel, depth)
    -> 3Dpoint] on a camera model; rotation-matrix and translation accessors
    on 3-D poses". Poses, rotations, cameras, calibrations and noise models
    of factors are opaque. *)
Class Geometry `{Scalar} : Type := {
  Pose2 : Type;
  Pose2_x : Pose2 → double;
  Pose2_y : Pose2 → double;
  Pose2_theta : Pose2 → double;
  Pose2_compose : Pose2 → Pose2 → Pose2;
  Pose2_transform_from : Pose2 → Point2 → Point2;
  Rot3 : Type;
  (** [R.matrix()(i, j)] *)
  Rot3_matrix : Rot3 → nat → nat → double;
  Pose3 : Type;
  (** [Pose3()] *)
  Pose3_identity : Pose3;
  Pose3_rotation : Pose3 → Rot3;
  Pose3_translation : Pose3 → Point3;
  Point2_retract : Point2 → Vector → Point2;
  Pose2_retract : Pose2 → Vector → Pose2;
  Point3_retract : Point3 → Vector → Point3;
  SimpleCamera : Type;
  SimpleCamera_backproject : SimpleCamera → Point2 → double → Point3;
  (** [Cal3_S2::shared_ptr] *)
  Cal3_S2_ptr : Type;
  (** [SharedNoiseModel] *)
  SharedNoiseModel : Type;
  (** the payload of a stored value of any other type *)
  OtherValue : Type;
  (** a factor of any other kind *)
  OtherFactor : Type;
}.

(** [M.row(i)] of a [Matrix3] *)
Definition Matrix3_row `{Scalar} (M : nat → nat → double) (i : nat) : Vector :=
  [M i 0%nat; M i 1%nat; M i 2%nat].

(** ** The typed value store *)

Section Store.
Context `{Geometry}.

(** A stored value carries its runtime type. *)
Inductive Value : Type :=
| Value_Point2 (p : Point2)
| Value_Point3 (p : Point3)
| Value_Pose2 (p : Pose2)
| Value_Pose3 (p : Pose3)
| Value_Other (o : OtherValue).

(** The types [T] of [filter<T>], [at<T>] and [update]: the injection into
    [Value] and the runtime type test. *)
Class ValueKind (T : Type) : Type := {
  to_Value : T → Value;
  from_Value : Value → option T;
  from_to_Value : ∀ t, from_Value (to_Value t) = Some t;
  to_from_Value : ∀ v t, from_Value v = Some t → v = to_Value t;
}.

Definition Value_as_Point2 (v : Value) : option Point2 :=
  match v with Value_Point2 p => Some p | _ => None end.

#[global] Instance Point2_kind : ValueKind Point2.
Proof.
  refine {| to_Value := Value_Point2; from_Value := Value_as_Point2 |}.
  - done.
  - by intros [] t [= <-].
Defined.

Definition Value_as_Point3 (v : Value) : option Point3 :=
  match v with Value_Point3 p => Some p | _ => None end.

#[global] Instance Point3_kind : ValueKind Point3.
Proof.
  refine {| to_Value := Value_Point3; from_Value := Value_as_Point3 |}.
  - done.
  - by intros [] t [= <-].
Defined.

Definition Value_as_Pose2 (v : Value) : option Pose2 :=
  match v with Value_Pose2 p => Some p | _ => None end.

#[global] Instance Pose2_kind : ValueKind Pose2.
Proof.
  refine {| to_Value := Value_Pose2; from_Value := Value_as_Pose2 |}.
  - done.
  - by intros [] t [= <-].
Defined.

Definition Value_as_Pose3 (v : Value) : option Pose3 :=
  match v with Value_Pose3 p => Some p | _ => None end.

#[global] Instance Pose3_kind : ValueKind Pose3.
Proof.
  refine {| to_Value := Value_Pose3; from_Value := Value_as_Pose3 |}.
  - done.
  - by intros [] t [= <-].
Defined.

End Store.

(** Modelled from the spec: the Typed Value Store [Values] (Values.h is not
    part of the sources), "a sorted mapping from Key to a polymorphic
    geometric value" with "at most one entry per Key", whose iteration
    order is ascending key order. It offers [insert], [update], the typed
    [at<T>] that "fails on type mismatch or missing key", [filter<T>]
    ("ordered sequence of (key, value) in ascending key order") and [keys].
    The store is the list of its entries in iteration order. The spec does
    not say what [insert] does with a key that is present: here it throws,
    which keeps the one-entry-per-key invariant. *)
Abbreviation Values := (list (Key * Value)).

Section StoreOperations.
Context `{Geometry}.

(** The store invariant: keys strictly ascending in iteration order. *)
Definition Values_wf (values : Values) : Prop :=
  StronglySorted N.lt values.*1.

Definition Values_empty : Values := [].

(** Modelled from the spec: the lookup behind [at], [insert] and [update]
    ([std::map::find]). *)
Fixpoint Values_find (values : Values) (j : Key) : option Value :=
  match values with
  | [] => None
  | (k, v) :: rest => if decide (k = j) then Some v else Values_find rest j
  end.

(** Modelled from the spec: a new entry goes to its place in key order. *)
Fixpoint Values_place (j : Key) (v : Value) (values : Values) : Values :=
  match values with
  | [] => [(j, v)]
  | (k, w) :: rest =>
      if decide (j < k)%N then (j, v) :: (k, w) :: rest
      else (k, w) :: Values_place j v rest
  end.

(** Modelled from the spec: the value at a key is replaced where it is. *)
Fixpoint Values_replace (j : Key) (v : Value) (values : Values) : Values :=
  match values with
  | [] => []
  | (k, w) :: rest =>
      if decide (k = j) then (k, v) :: rest
      else (k, w) :: Values_replace j v rest
  end.

(** Modelled from the spec: [insert(key, value)]. *)
Definition Values_insert `{!ValueKind T} (j : Key) (val : T)
    (values : Values) : outcome Values :=
  match Values_find values j with
  | Some _ => Throw (ValuesKeyAlreadyExists j)
  | None => Ok (Values_place j (to_Value val) values)
  end.

(** Modelled from the spec: [update(key, value)]; the "type tag is fixed at
    insertion", so the key must be present and hold a value of the type of
    the new one. *)
Definition Values_update `{!ValueKind T} (j : Key) (val : T)
    (values : Values) : outcome Values :=
  match Values_find values j with
  | None => Throw (ValuesKeyDoesNotExist "update" j)
  | Some old =>
      match from_Value (T:=T) old with
      | None => Throw (ValuesIncorrectType j)
      | Some _ => Ok (Values_replace j (to_Value val) values)
      end
  end.

(** Modelled from the spec: "typed [at<T>(key) -> T] (fails on type
    mismatch or missing key)". *)
Definition Values_at T `{!ValueKind T} (values : Values) (j : Key) : outcome T :=
  match Values_find values j with
  | None => Throw (ValuesKeyDoesNotExist "at" j)
  | Some v =>
      match from_Value v with
      | None => Throw (ValuesIncorrectType j)
      | Some t => Ok t
      end
  end.

(** Modelled from the spec: "[filter<T>() -> ordered sequence of (key,
    value)] in ascending key order". *)
Definition Values_filter T `{!ValueKind T} (values : Values) : list (Key * T) :=
  omap (λ key_value, (key_value.1 ,.) <$> from_Value key_value.2) values.

(** Modelled from the spec: "[keys() -> ordered sequence of all keys]". *)
Definition Values_keys (values : Values) : list Key := values.*1.
End StoreOperations.

(** ** Noise models and the sampler *)

(** The two noise-model constructors the wrapper calls:
    [noiseModel::Isotropic::Sigma(dim, sigma)] and
    [noiseModel::Diagonal::Sigmas(sigmas)]. *)
Inductive noiseModel `{Scalar} : Type :=
| Isotropic_Sigma (dim : nat) (sigma : double)
| Diagonal_Sigmas (sigmas : Vector).

(** [model->sigmas()]: one standard deviation per tangent dimension. *)
Definition noiseModel_sigmas `{Scalar} (model : noiseModel) : Vector :=
  match model with
  | Isotropic_Sigma dim sigma => replicate dim sigma
  | Diagonal_Sigmas sigmas => sigmas
  end.

(** Modelled from the spec: the [Sampler] (Sampler.h is not part of the
    sources), "a seeded pseudorandom generator bound to one Noise Model"
    for which "identical seed + identical sequence of draw calls" gives an
    "identical sequence of sampled vectors": a deterministic state machine
    built from the model and the seed, each draw returning a vector and the
    next state. *)
Class Sampling `{Scalar} : Type := {
  Sampler : Type;
  Sampler_new : noiseModel → Z → Sampler;
  Sampler_sample : Sampler → Vector * Sampler;
}.

(** The first [n] draws of a sampler. *)
Fixpoint Sampler_draws `{Sampling} (n : nat) (sampler : Sampler) : list Vector :=
  match n with
  | O => []
  | S n' =>
      let '(noise, sampler') := Sampler_sample sampler in
      noise :: Sampler_draws n' sampler'
  end.

(** ** Factors *)

Section Graph.
Context `{Geometry}.

(** [GenericProjectionFactor<Pose3, Point3>], by the arguments of its
    constructor. *)
Record GenericProjectionFactor : Type := mkGenericProjectionFactor {
  measured : Point2;
  noise_model : SharedNoiseModel;
  poseKey : Key;
  pointKey : Key;
  calibration : Cal3_S2_ptr;
  body_P_sensor : Pose3;
}.

(** [NonlinearFactor::shared_ptr]: null, or a factor with its runtime kind. *)
Inductive NonlinearFactor_ptr : Type :=
| null_factor
| projection_factor (p : GenericProjectionFactor)
| other_factor (f : OtherFactor).

Definition NonlinearFactorGraph : Type := list NonlinearFactor_ptr.

(** [boost::dynamic_pointer_cast<const GenericProjectionFactor<Pose3,
    Point3> >(f)] *)
Definition dynamic_pointer_cast (f : NonlinearFactor_ptr) :
    option GenericProjectionFactor :=
  match f with
  | projection_factor p => Some p
  | _ => None
  end.

(** Modelled from the spec: [p->unwhitenedError(values)], the factor's
    residual against a store (ProjectionFactor.h is not part of the
    sources), "an [unwhitenedError(store) -> vector] method on factors". *)
Class FactorEvaluation : Type := {
  unwhitenedError : GenericProjectionFactor → Values → Vector;
}.
End Graph.

(** ** The functions of matlab.h *)

Section Utilities.
Context `{Geometry} `{!Sampling} `{!FactorEvaluation}.

(** *** Matrix extraction *)

Definition extractPoint2 (values : Values) : Matrix :=
  let j := 0%nat in
  let points := Values_filter Point2 values in
  let result := Matrix_new (length points) 2 in
  (foldl (λ '(result, j) key_value,
            (set_row j (Point2_vector key_value.2) result, S j))
         (result, j) points).1.

Definition extractPoint3 (values : Values) : Matrix :=
  let points := Values_filter Point3 values in
  let result := Matrix_new (length points) 3 in
  let j := 0%nat in
  (foldl (λ '(result, j) key_value,
            (set_row j (Point3_vector key_value.2) result, S j))
         (result, j) points).1.

Definition extractPose2 (values : Values) : Matrix :=
  let poses := Values_filter Pose2 values in
  let result := Matrix_new (length poses) 3 in
  let j := 0%nat in
  (foldl (λ '(result, j) key_value,
            (set_row j [Pose2_x key_value.2; Pose2_y key_value.2;
                        Pose2_theta key_value.2] result, S j))
         (result, j) poses).1.

(** [values.filter<Pose3>()] converted to a [Values]. *)
Definition allPose3s (values : Values) : Values :=
  prod_map id to_Value <$> Values_filter Pose3 values.

Definition extractPose3 (values : Values) : Matrix :=
  let poses := Values_filter Pose3 values in
  let result := Matrix_new (length poses) 12 in
  let j := 0%nat in
  (foldl (λ '(result, j) key_value,
            let R := Rot3_matrix (Pose3_rotation key_value.2) in
            let result := set_row_segment j 0 3 (Matrix3_row R 0) result in
            let result := set_row_segment j 3 3 (Matrix3_row R 1) result in
            let result := set_row_segment j 6 3 (Matrix3_row R 2) result in
            let result :=
              set_row_tail j 3
                (Point3_vector (Pose3_translation key_value.2)) result in
            (result, S j))
         (result, j) poses).1.

(** *** Perturbation *)

(** [BOOST_FOREACH(key_value, values.filter<T>())] with a body that updates
    [values] while the view is walked. The filtered view is lazy: it walks
    the entries of the live store and tests the runtime type of each entry
    when it reaches it. [Values::update] replaces a value in place and never
    adds or removes an entry, so the walk reaches the keys the store had on
    entry, in that order, and reads each value from the store as it is
    then. The state is the store and the sampler. *)
Definition foreach_filtered T `{!ValueKind T}
    (body : Key → T → Values * Sampler → (Values * Sampler) * outcome unit)
    (values : Values) (sampler : Sampler) :
    (Values * Sampler) * outcome unit :=
  for_each
    (λ key state,
       match Values_find state.1 key ≫= from_Value with
       | Some value => body key value state
       | None => (state, Ok ())
       end)
    (Values_keys values) (values, sampler).

(** [values.update(key_value.key, key_value.value.retract(sampler.sample()))] *)
Definition perturb_body T `{!ValueKind T} (retract : T → Vector → T)
    (key : Key) (value : T) (state : Values * Sampler) :
    (Values * Sampler) * outcome unit :=
  let '(noise, sampler) := Sampler_sample state.2 in
  match Values_update key (retract value noise) state.1 with
  | Ok values => ((values, sampler), Ok ())
  | Throw e => ((state.1, sampler), Throw e)
  end.

Definition perturbPoint2_model (sigma : double) : noiseModel :=
  Isotropic_Sigma 2 sigma.

Definition perturbPoint2 (values : Values) (sigma : double)
    (seed : option Z) : Values * outcome unit :=
  let seed := default 42%Z seed in
  let model := perturbPoint2_model sigma in
  let sampler := Sampler_new model seed in
  let '((values, _), r) :=
    foreach_filtered Point2 (perturb_body Point2 Point2_retract)
      values sampler in
  (values, r).

Definition perturbPose2_model (sigmaT sigmaR : double) : noiseModel :=
  Diagonal_Sigmas (Vector3 sigmaT sigmaT sigmaR).

Definition perturbPose2 (values : Values) (sigmaT sigmaR : double)
    (seed : option Z) : Values * outcome unit :=
  let seed := default 42%Z seed in
  let model := perturbPose2_model sigmaT sigmaR in
  let sampler := Sampler_new model seed in
  let '((values, _), r) :=
    foreach_filtered Pose2 (perturb_body Pose2 Pose2_retract)
      values sampler in
  (values, r).

Definition perturbPoint3_model (sigma : double) : noiseModel :=
  Isotropic_Sigma 3 sigma.

Definition perturbPoint3 (values : Values) (sigma : double)
    (seed : option Z) : Values * outcome unit :=
  let seed := default 42%Z seed in
  let model := perturbPoint3_model sigma in
  let sampler := Sampler_new model seed in
  let '((values, _), r) :=
    foreach_filtered Point3 (perturb_body Point3 Point3_retract)
      values sampler in
  (values, r).

(** *** Backprojection and projection factors *)

Definition insertBackprojections (values : Values) (camera : SimpleCamera)
    (J : Vector) (Z : Matrix) (depth : double) : Values * outcome unit :=
  if decide (rows Z ≠ 2%nat) then
    (values, Throw (invalid_argument "insertBackProjections: Z must be 2*K"))
  else if decide (cols Z ≠ length J) then
    (values,
     Throw (invalid_argument
              "insertBackProjections: J and Z must have same number of entries"))
  else
    for_each
      (λ k values,
         let p := mkPoint2 (coeff Z 0 k) (coeff Z 1 k) in
         let P := SimpleCamera_backproject camera p depth in
         match Values_insert (double_to_Key (Vector_at J k)) P values with
         | Ok values' => (values', Ok ())
         | Throw e => (values, Throw e)
         end)
      (seq 0 (cols Z)) values.

Definition insertProjectionFactors (graph : NonlinearFactorGraph) (i : Key)
    (J : Vector) (Z : Matrix) (model : SharedNoiseModel) (K : Cal3_S2_ptr)
    (body_P_sensor : option Pose3) : NonlinearFactorGraph * outcome unit :=
  let body_P_sensor := default Pose3_identity body_P_sensor in
  if decide (rows Z ≠ 2%nat) then
    (graph, Throw (invalid_argument "addMeasurements: Z must be 2*K"))
  else if decide (cols Z ≠ length J) then
    (graph,
     Throw (invalid_argument
              "addMeasurements: J and Z must have same number of entries"))
  else
    for_each
      (λ k graph,
         (graph ++
          [projection_factor
             (mkGenericProjectionFactor
                (mkPoint2 (coeff Z 0 k) (coeff Z 1 k)) model i
                (double_to_Key (Vector_at J k)) K body_P_sensor)],
          Ok ()))
      (seq 0 (cols Z)) graph.

(** *** Reprojection errors *)

Definition reprojectionErrors (graph : NonlinearFactorGraph)
    (values : Values) : Matrix :=
  (* first count *)
  let K :=
    foldl (λ K f, match dynamic_pointer_cast f with
                  | Some _ => S K
                  | None => K
                  end) 0%nat graph in
  let k := 0%nat in
  (* now fill *)
  let errors := Matrix_new 2 K in
  (foldl (λ '(errors, k) f,
            match dynamic_pointer_cast f with
            | Some p => (set_col k (unwhitenedError p values) errors, S k)
            | None => (errors, k)
            end)
         (errors, k) graph).1.

(** *** Local to world coordinates *)

(** One iteration of the loop of [localToWorld]: the nested [try]/[catch]
    blocks. Both handlers catch [std::exception] by value, which every
    exception of the store derives from, whether [at] or [insert] threw. *)
Definition localToWorld_step (local : Values) (base : Pose2)
    (world : Values) (key : Key) : Values :=
  match
    pose ← Values_at Pose2 local key;
    Values_insert key (Pose2_compose base pose) world
  with
  | Ok world' => world'
  | Throw e1 =>
      match
        point ← Values_at Point2 local key;
        Values_insert key (Pose2_transform_from base point) world
      with
      | Ok world' => world'
      | Throw e2 => world
      end
  end.

Definition localToWorld (local : Values) (base : Pose2)
    (user_keys : option (list Key)) : Values :=
  let user_keys := default [] user_keys in
  let world := Values_empty in
  let keys :=
    if decide (length user_keys = 0%nat) then Values_keys local
    else user_keys in
  foldl (localToWorld_step local base) world keys.
End Utilities.

(** ** What the specification names

    The column layouts of the extraction table, the shape of an extracted
    matrix, and the store a perturbation is specified to produce. These
    follow the specification's words; the theorems compare them with the
    functions above. *)

Section Specification.
Context `{Geometry}.

(** "2-D point: x, y" *)
Definition Point2_layout (p : Point2) : Vector := [Point2_x p; Point2_y p].

(** "3-D point: x, y, z" *)
Definition Point3_layout (p : Point3) : Vector :=
  [Point3_x p; Point3_y p; Point3_z p].

(** "2-D pose: x, y, heading" *)
Definition Pose2_layout (p : Pose2) : Vector :=
  [Pose2_x p; Pose2_y p; Pose2_theta p].

(** "3-D pose: row-major 3x3 rotation (flattened row 0, row 1, row 2), then
    translation x, y, z" *)
Definition Pose3_layout (p : Pose3) : Vector :=
  let R := Rot3_matrix (Pose3_rotation p) in
  let t := Pose3_translation p in
  [R 0 0; R 0 1; R 0 2; R 1 0; R 1 1; R 1 2; R 2 0; R 2 1; R 2 2;
   Point3_x t; Point3_y t; Point3_z t]%nat.

(** The matrix [m] has [w] columns and one row per element of [l], in the
    order of [l], each laid out by [layout]. *)
Definition rows_of {A} (m : Matrix) (w : nat) (layout : A → Vector)
    (l : list A) : Prop :=
  rows m = length l ∧ cols m = w ∧ Matrix_to_rows m = layout <$> l.

(** "for every entry of type T in ascending key order draws one sample and
    replaces the stored value with value.retract(sample)": the entries of
    type [T] consume the draws in store order, every other entry stays. *)
Fixpoint retract_entries T `{!ValueKind T} (retract : T → Vector → T)
    (values : Values) (draws : list Vector) : Values :=
  match values with
  | [] => []
  | (key, v) :: rest =>
      match from_Value v, draws with
      | Some value, noise :: draws' =>
          (key, to_Value (retract value noise))
            :: retract_entries T retract rest draws'
      | Some _, [] => (key, v) :: rest
      | None, _ => (key, v) :: retract_entries T retract rest draws
      end
  end.

(** "(1) as a 2-D pose: compose basePose with it; (2) else as a 2-D point:
    transform it from basePose's frame; (3) else skip", for the value that
    [local] holds at [key], if any. *)
Definition retarget_value (local : Values) (base : Pose2) (key : Key) :
    option Value :=
  match Values_find local key with
  | Some (Value_Pose2 pose) => Some (Value_Pose2 (Pose2_compose base pose))
  | Some (Value_Point2 point) =>
      Some (Value_Point2 (Pose2_transform_from base point))
  | _ => None
  end.

(** The same three cases, on a value. *)
Definition retarget_entry (base : Pose2) (v : Value) : option Value :=
  match v with
  | Value_Pose2 pose => Some (Value_Pose2 (Pose2_compose base pose))
  | Value_Point2 point => Some (Value_Point2 (Pose2_transform_from base point))
  | _ => None
  end.

(** [l] lists the entries of type [T] of the store, each once, in ascending
    key order. *)
Definition entries_in_key_order T `{!ValueKind T} (values : Values)
    (l : list (Key * T)) : Prop :=
  (∀ j t, (j, t) ∈ l ↔ (j, to_Value t) ∈ values) ∧ StronglySorted N.lt l.*1.

(** All standard deviations of a noise model are [0.0]. *)
Definition zero_noise (model : noiseModel) : Prop :=
  Forall (λ sigma, sigma = double_zero) (noiseModel_sigmas model).

(** The zero tangent vector of a dimension. *)
Definition zero_vector (dim : nat) : Vector := replicate dim double_zero.
End Specification.

(** ** An exact instance of the interfaces

    Integers stand for [double], a pose is a translation (and a heading that
    adds up), [retract] adds the tangent vector, and the sampler scales a
    linear congruential sequence by the sigmas of its model. The instance
    lets the functions above run on concrete stores and graphs. *)

Module Exact.

#[export] Instance scalar : Scalar := {|
  double := Z;
  double_zero := 0%Z;
  indeterminate := (-1)%Z;
  double_to_integer := Z.to_N;
|}.

Definition add2 (p : Point2) (v : Vector) : Point2 :=
  mkPoint2 (Point2_x p + Vector_at v 0)%Z (Point2_y p + Vector_at v 1)%Z.

Definition add3 (p : Point3) (v : Vector) : Point3 :=
  mkPoint3 (Point3_x p + Vector_at v 0)%Z (Point3_y p + Vector_at v 1)%Z
           (Point3_z p + Vector_at v 2)%Z.

#[export] Instance geometry : Geometry := {|
  Pose2 := Point3;
  Pose2_x := Point3_x;
  Pose2_y := Point3_y;
  Pose2_theta := Point3_z;
  Pose2_compose := λ a b, add3 a (Point3_vector b);
  Pose2_transform_from := λ a p, add2 p [Point3_x a; Point3_y a];
  Rot3 := unit;
  Rot3_matrix := λ _ i j, if decide (i = j) then 1%Z else 0%Z;
  Pose3 := Point3;
  Pose3_identity := mkPoint3 0%Z 0%Z 0%Z;
  Pose3_rotation := λ _, ();
  Pose3_translation := λ t, t;
  Point2_retract := add2;
  Pose2_retract := add3;
  Point3_retract := add3;
  SimpleCamera := unit;
  SimpleCamera_backproject := λ _ p depth,
    mkPoint3 (Point2_x p * depth)%Z (Point2_y p * depth)%Z depth;
  Cal3_S2_ptr := unit;
  SharedNoiseModel := unit;
  OtherValue := string;
  OtherFactor := string;
|}.

#[export] Instance sampling : Sampling := {|
  Sampler := Vector * Z;
  Sampler_new := λ model seed, (noiseModel_sigmas model, seed);
  Sampler_sample := λ '(sigmas, state),
    ((λ sigma, sigma * (state mod 7 - 3))%Z <$> sigmas,
     (sigmas, (state * 1103515245 + 12345) mod 2147483648)%Z);
|}.

#[export] Instance evaluation : FactorEvaluation := {|
  unwhitenedError := λ p values,
    match Values_at Point3 values (pointKey p) with
    | Ok P => [(Point3_x P - Point2_x (measured p))%Z;
               (Point3_y P - Point2_y (measured p))%Z]
    | Throw _ => [0%Z; 0%Z]
    end;
|}.

Definition pt2 (x y : Z) : Point2 := mkPoint2 x y.
Definition pt3 (x y z : Z) : Point3 := mkPoint3 x y z.

(** 2-D points at keys 1, 3 and 5, a 2-D pose at key 2, a 3-D pose at key
    4 and a 3-D point at key 7. *)
Definition store : Values :=
  [(1%N, Value_Point2 (pt2 10 11));
   (2%N, Value_Pose2 (pt3 20 21 22));
   (3%N, Value_Point2 (pt2 30 31));
   (4%N, Value_Pose3 (pt3 40 41 42));
   (5%N, Value_Point2 (pt2 50 51));
   (7%N, Value_Point3 (pt3 70 71 72))].

(** [store] after [perturbPoint2] with sigma 2 and seed 7. *)
Definition store_perturbed : Values :=
  [(1%N, Value_Point2 (pt2 4 5));
   (2%N, Value_Pose2 (pt3 20 21 22));
   (3%N, Value_Point2 (pt2 34 35));
   (4%N, Value_Pose3 (pt3 40 41 42));
   (5%N, Value_Point2 (pt2 46 47));
   (7%N, Value_Point3 (pt3 70 71 72))].

(** [store] retargeted to the base pose (1, 2, 3) at keys 5, 2, 2, 5, 9
    and 4: key 9 is absent and key 4 holds a 3-D pose. *)
Definition base : Pose2 := pt3 1 2 3.

Definition requested_keys : list Key := [5%N; 2%N; 2%N; 5%N; 9%N; 4%N].

Definition store_in_world : Values :=
  [(2%N, Value_Pose2 (pt3 21 23 25));
   (5%N, Value_Point2 (pt2 51 53))].

(** The 3-D poses of [store]. *)
Definition store_poses : Values := [(4%N, Value_Pose3 (pt3 40 41 42))].

(** The keys of [requested_keys], each once and in another order. *)
Definition requested_keys_sorted : list Key := [2%N; 4%N; 5%N; 9%N].

(** More keys than [store] has. *)
Definition many_keys : list Key :=
  [9%N; 7%N; 5%N; 4%N; 3%N; 2%N; 1%N; 0%N].

(** The empty store, and the store of the points (1, 1) and (2, 2) at keys
    1 and 2. *)
Definition empty_store : Values := [].

Definition two_points : Values :=
  [(1%N, Value_Point2 (pt2 1 1)); (2%N, Value_Point2 (pt2 2 2))].

(** A 2x2 pixel matrix, and a 3x2 matrix of the wrong shape. *)
Definition pixels : Matrix :=
  {| rows := 2; cols := 2;
     coeff := λ i k, (100 * Z.of_nat i + Z.of_nat k)%Z |}.

Definition pixels_3_rows : Matrix :=
  {| rows := 3; cols := 2;
     coeff := λ i k, (100 * Z.of_nat i + Z.of_nat k)%Z |}.

Definition landmarks : Vector := [8%Z; 9%Z].

(** Landmark indices that repeat the key 8. *)
Definition landmarks_8_8 : Vector := [8%Z; 8%Z].

(** [store] after backprojecting the first column of [pixels] at depth 2
    to key 8. *)
Definition store_with_8 : Values :=
  store ++ [(8%N, Value_Point3 (pt3 0 200 2))].

(** Index vectors: three indices of at most 56 bits, and the index 2^56. *)
Definition indices : Vector := [3%Z; 0%Z; 72057594037927935%Z].

Definition index_2_56 : Vector := [72057594037927936%Z].

(** A graph with one factor of another kind, and the projection factor of
    pose key 2 that measures the pixel [(x, y)] of landmark [j]. *)
Definition prior_graph : NonlinearFactorGraph := [other_factor "prior"].

Definition projection (x y : Z) (j : Key) : NonlinearFactor_ptr :=
  projection_factor
    (mkGenericProjectionFactor (pt2 x y) () 2%N j () (pt3 0 0 0)).

End Exact.
(** * Properties *)

(** ** Key/Symbol codec *)

Section SymbolFacts.
Local Open Scope N_scope.

Lemma wrap64_land n : wrap64 n = N.land n (N.ones 64).
Proof. unfold wrap64. by rewrite N.land_ones. Qed.

Lemma N_of_ascii_bits_high c n : 8 ≤ n → N.testbit (N_of_ascii c) n = false.
Proof.
  intros Hn. pose proof (N_ascii_bounded c) as Hc.
  destruct (decide (N_of_ascii c = 0)) as [->|Hne]; [apply N.bits_0|].
  apply N.bits_above_log2. apply N.log2_lt_pow2; [lia|].
  eapply N.lt_le_trans; [exact Hc|].
  change 256 with (2 ^ 8). by apply N.pow_le_mono_r.
Qed.

Lemma index_bits_high j n :
  j < 2 ^ Symbol.indexBits → Symbol.indexBits ≤ n → N.testbit j n = false.
Proof.
  intros Hj Hn.
  destruct (decide (j = 0)) as [->|Hne]; [apply N.bits_0|].
  apply N.bits_above_log2. apply N.log2_lt_pow2; [lia|].
  eapply N.lt_le_trans; [exact Hj|]. by apply N.pow_le_mono_r.
Qed.

(** Within the 56 index bits the packing is positional. *)
Lemma Symbol_key_testbit c j n :
  j < 2 ^ Symbol.indexBits →
  N.testbit (Symbol.key c j) n =
    if decide (n < Symbol.indexBits) then N.testbit j n
    else N.testbit (N_of_ascii c) (n - Symbol.indexBits).
Proof.
  intros Hj. unfold Symbol.key. rewrite wrap64_land, N.land_spec, N.lor_spec.
  case_decide as Hn.
  - rewrite N.shiftl_spec_low by done.
    rewrite N.ones_spec_low; [by rewrite andb_true_r|].
    unfold Symbol.indexBits, Symbol.keyBits, Symbol.chrBits in Hn. lia.
  - rewrite N.shiftl_spec_high' by lia.
    rewrite (index_bits_high j n) by (done || lia). rewrite orb_false_r.
    destruct (decide (n < 64)) as [Hlt|Hge].
    + rewrite N.ones_spec_low by done. by rewrite andb_true_r.
    + rewrite N.ones_spec_high by lia. rewrite andb_false_r.
      symmetry. apply N_of_ascii_bits_high.
      unfold Symbol.indexBits, Symbol.keyBits, Symbol.chrBits. lia.
Qed.

Lemma Symbol_index_key c j :
  j < 2 ^ Symbol.indexBits → Symbol.index (Symbol.key c j) = j.
Proof.
  intros Hj. unfold Symbol.index, Symbol.indexMask. apply N.bits_inj. intros n.
  rewrite N.land_spec, Symbol_key_testbit by done.
  case_decide as Hn.
  - rewrite N.ones_spec_low by done. by rewrite andb_true_r.
  - rewrite N.ones_spec_high by lia. rewrite andb_false_r.
    symmetry. apply index_bits_high; [done | lia].
Qed.

Lemma Symbol_chr_key c j :
  j < 2 ^ Symbol.indexBits → Symbol.chr (Symbol.key c j) = c.
Proof.
  intros Hj. unfold Symbol.chr.
  rewrite <- (ascii_N_embedding c) at 2. f_equal.
  apply N.bits_inj. intros n.
  rewrite N.shiftr_spec' , N.land_spec, Symbol_key_testbit by done.
  rewrite decide_False by lia.
  replace (n + Symbol.indexBits - Symbol.indexBits) with n by lia.
  unfold Symbol.chrMask. rewrite N.shiftl_spec_high' by lia.
  replace (n + Symbol.indexBits - Symbol.indexBits) with n by lia.
  destruct (decide (n < 8)) as [Hlt|Hge].
  - change 255 with (N.ones 8). rewrite N.ones_spec_low by done.
    by rewrite andb_true_r.
  - rewrite N_of_ascii_bits_high by lia. done.
Qed.

Lemma Symbol_decode_key c j :
  j < 2 ^ Symbol.indexBits → Symbol.decode (Symbol.key c j) = (c, j).
Proof.
  intros Hj. unfold Symbol.decode.
  by rewrite Symbol_chr_key, Symbol_index_key.
Qed.
End SymbolFacts.

Section KeyFacts.
Context `{Scalar}.

Lemma foldl_snoc_fmap {A B} (f : A → B) (l : list A) (acc : list B) :
  foldl (λ set d, set ++ [f d]) acc l = acc ++ (f <$> l).
Proof.
  revert acc. induction l as [|a l IH]; intros acc; simpl.
  - by rewrite app_nil_r.
  - by rewrite IH, <- app_assoc.
Qed.

Lemma foldl_set_insert {A} (f : A → Key) (l : list A) (acc : gset Key) k :
  k ∈ foldl (λ set d, {[ f d ]} ∪ set) acc l ↔ k ∈ acc ∨ ∃ d, d ∈ l ∧ k = f d.
Proof.
  revert acc. induction l as [|a l IH]; intros acc; simpl.
  - split; [by left|]. intros [?|(d & Hd & _)]; [done|]. by apply elem_of_nil in Hd.
  - rewrite IH. split.
    + intros [Hk|(d & Hd & ->)].
      * apply elem_of_union in Hk as [Hk%elem_of_singleton|Hk]; [|by left].
        right. exists a. split; [left | done].
      * right. exists d. split; [by right | done].
    + intros [Hk|(d & Hd & ->)].
      * left. apply elem_of_union. by right.
      * apply elem_of_cons in Hd as [->|Hd].
        { left. apply elem_of_union. left. by apply elem_of_singleton. }
        right. by exists d.
Qed.
End KeyFacts.

(** ** The value store *)

Section StoreFacts.
Context `{Geometry}.

Lemma Values_find_None (values : Values) j :
  Values_find values j = None ↔ j ∉ values.*1.
Proof.
  induction values as [|[k v] rest IH]; simpl.
  - split; [intros _; apply not_elem_of_nil | done].
  - rewrite not_elem_of_cons. case_decide as Hk.
    + split; [done|]. by intros [? _].
    + rewrite IH. split; [by split|]. by intros [_ ?].
Qed.

Lemma Values_find_Some (values : Values) j v :
  Values_find values j = Some v → (j, v) ∈ values.
Proof.
  induction values as [|[k w] rest IH]; simpl; [done|].
  case_decide as Hk.
  - intros [= <-]. subst. left.
  - intros Hf. right. by apply IH.
Qed.

Lemma Values_find_app (pre suf : Values) j :
  Values_find (pre ++ suf) j =
    match Values_find pre j with
    | Some v => Some v
    | None => Values_find suf j
    end.
Proof.
  induction pre as [|[k w] rest IH]; simpl; [done|]. by case_decide.
Qed.

Lemma Values_find_place (values : Values) j v k :
  Values_find values j = None →
  Values_find (Values_place j v values) k =
    if decide (k = j) then Some v else Values_find values k.
Proof.
  induction values as [|[k' w] rest IH]; simpl.
  - intros _. repeat case_decide; congruence.
  - intros Hf. destruct (decide (k' = j)) as [|Hk']; [done|].
    destruct (decide (j < k')%N); simpl.
    + repeat case_decide; congruence.
    + rewrite IH by done. repeat case_decide; congruence.
Qed.

Lemma Values_place_keys (values : Values) j v k :
  k ∈ (Values_place j v values).*1 ↔ k = j ∨ k ∈ values.*1.
Proof.
  induction values as [|[k' w] rest IH]; simpl.
  - rewrite list_elem_of_singleton. split; [by left|].
    intros [?|Hk]; [done|]. by apply elem_of_nil in Hk.
  - case_decide; simpl.
    + by rewrite elem_of_cons.
    + rewrite !elem_of_cons, IH. tauto.
Qed.

Lemma Values_wf_place (values : Values) j v :
  Values_wf values → j ∉ values.*1 → Values_wf (Values_place j v values).
Proof.
  unfold Values_wf.
  induction values as [|[k' w] rest IH]; simpl; intros Hwf Hj.
  - repeat constructor.
  - apply StronglySorted_inv in Hwf as [Hrest Hall].
    apply not_elem_of_cons in Hj as [Hne Hj].
    case_decide as Hlt; simpl.
    + constructor; [by constructor|].
      constructor; [done|].
      eapply Forall_impl; [exact Hall|]. intros k. simpl. lia.
    + constructor; [by apply IH|].
      apply Forall_forall. intros k Hk.
      apply Values_place_keys in Hk as [->|Hk]; [lia|].
      by eapply Forall_forall in Hall.
Qed.

Lemma Values_wf_NoDup (values : Values) : Values_wf values → NoDup values.*1.
Proof.
  unfold Values_wf. induction 1 as [|k ks Hs IH Hall]; constructor; [|done].
  intros Hin. eapply Forall_forall in Hall; [|exact Hin]. simpl in Hall. lia.
Qed.

Lemma Values_replace_app (pre suf : Values) j v w :
  j ∉ pre.*1 →
  Values_replace j v (pre ++ (j, w) :: suf) = pre ++ (j, v) :: suf.
Proof.
  induction pre as [|[k u] rest IH]; simpl; intros Hj.
  - by rewrite decide_True.
  - apply not_elem_of_cons in Hj as [Hne Hj].
    rewrite decide_False by done. by rewrite IH.
Qed.

(** Two stores with the same entries are the same store. *)
Lemma Values_ext (values1 values2 : Values) :
  Values_wf values1 → Values_wf values2 →
  (∀ j, Values_find values1 j = Values_find values2 j) →
  values1 = values2.
Proof.
  revert values2.
  induction values1 as [|[k1 v1] rest1 IH]; intros [|[k2 v2] rest2] Hwf1 Hwf2 Heq.
  - done.
  - specialize (Heq k2). simpl in Heq. by rewrite decide_True in Heq.
  - specialize (Heq k1). simpl in Heq. by rewrite decide_True in Heq.
  - unfold Values_wf in Hwf1, Hwf2. simpl in Hwf1, Hwf2.
    apply StronglySorted_inv in Hwf1 as [Hrest1 Hall1].
    apply StronglySorted_inv in Hwf2 as [Hrest2 Hall2].
    assert (k1 = k2) as <-.
    { destruct (decide (k1 = k2)) as [|Hne]; [done|].
      pose proof (Heq k1) as E1. pose proof (Heq k2) as E2. simpl in E1, E2.
      rewrite decide_True, decide_False in E1 by done.
      rewrite decide_False, decide_True in E2 by done.
      symmetry in E1.
      apply Values_find_Some, (list_elem_of_fmap_2 fst) in E1.
      apply Values_find_Some, (list_elem_of_fmap_2 fst) in E2.
      eapply Forall_forall in Hall1; [|exact E2].
      eapply Forall_forall in Hall2; [|exact E1].
      simpl in *. lia. }
    assert (v1 = v2) as <-.
    { specialize (Heq k1). simpl in Heq. rewrite !decide_True in Heq by done.
      congruence. }
    f_equal. apply IH; [done..|].
    intros j. specialize (Heq j). simpl in Heq.
    case_decide as Hj; [|done]. subst j.
    transitivity (@None Value); [|symmetry]; apply Values_find_None.
    + intros Hin. eapply Forall_forall in Hall1; [|exact Hin]. lia.
    + intros Hin. eapply Forall_forall in Hall2; [|exact Hin]. lia.
Qed.

(** [filter<T>] keeps the iteration order of the store. *)
Lemma Values_filter_sorted T `{!ValueKind T} (values : Values) :
  Values_wf values → StronglySorted N.lt (Values_filter T values).*1.
Proof.
  unfold Values_wf, Values_filter.
  induction values as [|[k v] rest IH]; simpl; intros Hwf; [constructor|].
  apply StronglySorted_inv in Hwf as [Hrest Hall].
  destruct (from_Value v) as [t|]; simpl; [|by apply IH].
  constructor; [by apply IH|].
  apply Forall_forall. intros j Hj.
  eapply Forall_forall in Hall; [exact Hall|].
  apply list_elem_of_fmap in Hj as ([j' t'] & -> & Hj).
  apply list_elem_of_omap in Hj as ([j'' v'] & Hin & Hv). simpl in Hv.
  destruct (from_Value v'); simplify_eq/=.
  by apply (list_elem_of_fmap_2 fst) in Hin.
Qed.

Lemma Values_filter_elem_of T `{!ValueKind T} (values : Values) j t :
  (j, t) ∈ Values_filter T values ↔ (j, to_Value t) ∈ values.
Proof.
  unfold Values_filter. rewrite list_elem_of_omap. split.
  - intros ([k v] & Hin & Hv). simpl in Hv.
    destruct (from_Value v) as [t'|] eqn:Hf; simplify_eq/=.
    by rewrite <- (to_from_Value _ _ Hf).
  - intros Hin. exists (j, to_Value t). split; [done|]. simpl.
    by rewrite from_to_Value.
Qed.
End StoreFacts.

(** ** Filling a matrix row by row, or column by column *)

Section MatrixFacts.
Context `{Scalar}.

Lemma Vector_at_seq (v : Vector) :
  (λ c, Vector_at v c) <$> seq 0 (length v) = v.
Proof.
  apply list_eq. intros c. rewrite list_lookup_fmap.
  destruct (decide (c < length v)) as [Hc|Hc].
  - rewrite lookup_seq_lt by done. simpl. unfold Vector_at.
    destruct (lookup_lt_is_Some_2 v c Hc) as [x Hx]. by rewrite Hx.
  - rewrite lookup_seq_ge by lia. simpl. symmetry. apply lookup_ge_None. lia.
Qed.

(** A loop [result.row(j++) = f a] over [l], started at row [j0] of a
    matrix of width [w]. *)
Lemma fill_rows {A} (w : nat) (f : A → Vector)
    (step : nat → A → Matrix → Matrix) :
  (∀ j a m, rows (step j a m) = rows m ∧ cols (step j a m) = cols m) →
  (∀ j a m i c, cols m = w → c < w →
     coeff (step j a m) i c =
       if decide (i = j) then Vector_at (f a) c else coeff m i c) →
  ∀ (l : list A) m j0, cols m = w →
    let r := (foldl (λ '(result, j) a, (step j a result, S j)) (m, j0) l).1 in
    rows r = rows m ∧ cols r = w ∧
    ∀ i c, c < w →
      coeff r i c =
        match l !! (i - j0) with
        | Some a => if decide (j0 ≤ i) then Vector_at (f a) c else coeff m i c
        | None => coeff m i c
        end.
Proof.
  intros Hdim Hstep l. induction l as [|a l IH]; intros m j0 Hw; simpl.
  - done.
  - destruct (Hdim j0 a m) as [Hr Hc].
    destruct (IH (step j0 a m) (S j0)) as (IHr & IHc & IHcoeff); [congruence|].
    split_and!; [congruence | done |].
    intros i c Hcw. rewrite IHcoeff by done.
    destruct (decide (i < j0)) as [Hlt|Hge];
      [|destruct (decide (i = j0)) as [->|Hne]].
    + replace (i - S j0) with 0 by lia. replace (i - j0) with 0 by lia. simpl.
      destruct (l !! 0); rewrite ?Hstep by done; repeat case_decide; done || lia.
    + replace (j0 - S j0) with 0 by lia. replace (j0 - j0) with 0 by lia. simpl.
      destruct (l !! 0); rewrite ?Hstep by done; repeat case_decide; done || lia.
    + replace (i - j0) with (S (i - S j0)) by lia. simpl.
      destruct (l !! (i - S j0)); rewrite ?Hstep by done;
        repeat case_decide; done || lia.
Qed.

Lemma Matrix_to_rows_filled {A} (f : A → Vector) (l : list A) (r : Matrix) :
  rows r = length l →
  (∀ a, a ∈ l → length (f a) = cols r) →
  (∀ i c a, l !! i = Some a → c < cols r → coeff r i c = Vector_at (f a) c) →
  Matrix_to_rows r = f <$> l.
Proof.
  intros Hr Hlen Hcoeff. unfold Matrix_to_rows. rewrite Hr.
  apply list_eq. intros i. rewrite !list_lookup_fmap.
  destruct (l !! i) as [a|] eqn:Ha; simpl.
  - rewrite lookup_seq_lt by (by eapply lookup_lt_Some). simpl. f_equal.
    unfold Matrix_row.
    rewrite <- (Vector_at_seq (f a)), (Hlen a) by (by eapply list_elem_of_lookup_2).
    apply list_eq. intros c. rewrite !list_lookup_fmap.
    destruct (decide (c < cols r)) as [Hc|Hc].
    + rewrite lookup_seq_lt by done. simpl. f_equal. by apply Hcoeff.
    + by rewrite lookup_seq_ge by lia.
  - rewrite lookup_seq_ge; [done|]. apply lookup_ge_None in Ha. lia.
Qed.

(** The rows of a matrix that a loop filled completely. *)
Lemma extract_rows {A} (w : nat) (f : A → Vector)
    (step : nat → A → Matrix → Matrix) (l : list A) :
  (∀ j a m, rows (step j a m) = rows m ∧ cols (step j a m) = cols m) →
  (∀ j a m i c, cols m = w → c < w →
     coeff (step j a m) i c =
       if decide (i = j) then Vector_at (f a) c else coeff m i c) →
  (∀ a, length (f a) = w) →
  let r := (foldl (λ '(result, j) a, (step j a result, S j))
                  (Matrix_new (length l) w, 0) l).1 in
  Matrix_to_rows r = f <$> l ∧ rows r = length l ∧ cols r = w.
Proof.
  intros Hdim Hstep Hlen r.
  destruct (fill_rows w f step Hdim Hstep l (Matrix_new (length l) w) 0)
    as (Hr & Hc & Hcoeff); [done|].
  fold r in Hr, Hc, Hcoeff. simpl in Hr. split_and!; [|done..].
  apply Matrix_to_rows_filled; [done | by intros; rewrite Hc |].
  intros i c a Ha Hcw. rewrite Hcoeff by lia.
  rewrite Nat.sub_0_r, Ha. by rewrite decide_True by lia.
Qed.

Lemma set_row_dims j v m :
  rows (set_row j v m) = rows m ∧ cols (set_row j v m) = cols m.
Proof. done. Qed.

Lemma set_row_coeff j v m i c :
  c < cols m →
  coeff (set_row j v m) i c = if decide (i = j) then Vector_at v c else coeff m i c.
Proof.
  intros Hc. simpl. rewrite Nat.sub_0_r.
  destruct (decide (i = j)) as [->|Hne].
  - by rewrite decide_True by lia.
  - rewrite decide_False; [done|]. by intros [? _].
Qed.

(** A loop [errors.col(k++) = g p] over [l], started at column [k0] of a
    matrix of height [h]. *)
Lemma fill_cols {A} (h : nat) (g : A → Vector) (l : list A) :
  ∀ m k0, rows m = h →
    let r := (foldl (λ '(errors, k) p, (set_col k (g p) errors, S k)) (m, k0) l).1 in
    rows r = h ∧ cols r = cols m ∧
    ∀ i c, i < h →
      coeff r i c =
        match l !! (c - k0) with
        | Some p => if decide (k0 ≤ c) then Vector_at (g p) i else coeff m i c
        | None => coeff m i c
        end.
Proof.
  induction l as [|a l IH]; intros m k0 Hh; simpl.
  - done.
  - destruct (IH (set_col k0 (g a) m) (S k0)) as (IHr & IHc & IHcoeff); [done|].
    split_and!; [done..|].
    intros i c Hi. rewrite IHcoeff by done. simpl.
    destruct (decide (c < k0)) as [Hlt|Hge];
      [|destruct (decide (c = k0)) as [->|Hne]].
    + replace (c - S k0) with 0 by lia. replace (c - k0) with 0 by lia. simpl.
      destruct (l !! 0); repeat case_decide; done || lia.
    + replace (k0 - S k0) with 0 by lia. replace (k0 - k0) with 0 by lia. simpl.
      destruct (l !! 0); repeat case_decide; done || lia.
    + replace (c - k0) with (S (c - S k0)) by lia. simpl.
      destruct (l !! (c - S k0)); repeat case_decide; done || lia.
Qed.

Lemma Matrix_to_cols_filled {A} (g : A → Vector) (l : list A) (r : Matrix) :
  cols r = length l →
  (∀ i c p, l !! c = Some p → i < rows r → coeff r i c = Vector_at (g p) i) →
  Matrix_to_cols r = (λ p, (λ i, Vector_at (g p) i) <$> seq 0 (rows r)) <$> l.
Proof.
  intros Hc Hcoeff. unfold Matrix_to_cols. rewrite Hc.
  apply list_eq. intros c. rewrite !list_lookup_fmap.
  destruct (l !! c) as [p|] eqn:Hp; simpl.
  - rewrite lookup_seq_lt by (by eapply lookup_lt_Some). simpl. f_equal.
    unfold Matrix_col.
    apply list_eq. intros i. rewrite !list_lookup_fmap.
    destruct (decide (i < rows r)) as [Hi|Hi].
    + rewrite lookup_seq_lt by done. simpl. f_equal. by apply Hcoeff.
    + by rewrite lookup_seq_ge by lia.
  - rewrite lookup_seq_ge; [done|]. apply lookup_ge_None in Hp. lia.
Qed.
End MatrixFacts.

(** ** Matrix extraction *)

Section ExtractFacts.
Context `{Geometry}.

Lemma extractPoint2_rows (values : Values) :
  rows_of (extractPoint2 values) 2 Point2_layout (Values_filter Point2 values).*2.
Proof.
  unfold rows_of, extractPoint2.
  rewrite <- (length_fmap snd (Values_filter Point2 values)).
  rewrite <- list_fmap_compose.
  destruct (extract_rows 2 (λ kv : Key * Point2, Point2_layout kv.2)
              (λ j kv, set_row j (Point2_vector kv.2))
              (Values_filter Point2 values)) as (Hrows & Hr & Hc).
  - intros. apply set_row_dims.
  - intros j kv m i c Hw Hc. apply set_row_coeff. lia.
  - done.
  - rewrite length_fmap. done.
Qed.

Lemma extractPoint3_rows (values : Values) :
  rows_of (extractPoint3 values) 3 Point3_layout (Values_filter Point3 values).*2.
Proof.
  unfold rows_of, extractPoint3.
  rewrite <- (length_fmap snd (Values_filter Point3 values)).
  rewrite <- list_fmap_compose.
  destruct (extract_rows 3 (λ kv : Key * Point3, Point3_layout kv.2)
              (λ j kv, set_row j (Point3_vector kv.2))
              (Values_filter Point3 values)) as (Hrows & Hr & Hc).
  - intros. apply set_row_dims.
  - intros j kv m i c Hw Hc. apply set_row_coeff. lia.
  - done.
  - rewrite length_fmap. done.
Qed.

Lemma extractPose2_rows (values : Values) :
  rows_of (extractPose2 values) 3 Pose2_layout (Values_filter Pose2 values).*2.
Proof.
  unfold rows_of, extractPose2.
  rewrite <- (length_fmap snd (Values_filter Pose2 values)).
  rewrite <- list_fmap_compose.
  destruct (extract_rows 3 (λ kv : Key * Pose2, Pose2_layout kv.2)
              (λ j kv, set_row j [Pose2_x kv.2; Pose2_y kv.2; Pose2_theta kv.2])
              (Values_filter Pose2 values)) as (Hrows & Hr & Hc).
  - intros. apply set_row_dims.
  - intros j kv m i c Hw Hc. apply set_row_coeff. lia.
  - done.
  - rewrite length_fmap. done.
Qed.

(** The four segment writes of [extractPose3] fill one row of 12. *)
Lemma extractPose3_step_coeff (j : nat) (p : Pose3) (m : Matrix) i c :
  cols m = 12 → c < 12 →
  let R := Rot3_matrix (Pose3_rotation p) in
  coeff
    (set_row_tail j 3 (Point3_vector (Pose3_translation p))
       (set_row_segment j 6 3 (Matrix3_row R 2)
          (set_row_segment j 3 3 (Matrix3_row R 1)
             (set_row_segment j 0 3 (Matrix3_row R 0) m)))) i c =
    if decide (i = j) then Vector_at (Pose3_layout p) c else coeff m i c.
Proof.
  intros Hw Hc R. simpl. rewrite Hw.
  destruct (decide (i = j)) as [->|Hne].
  - do 12 (destruct c as [|c];
           [repeat (case_decide; [try (exfalso; lia)|]); try done;
            exfalso; lia|]).
    lia.
  - repeat (rewrite decide_False; [|by intros [? _]]). done.
Qed.

Lemma extractPose3_rows (values : Values) :
  rows_of (extractPose3 values) 12 Pose3_layout (Values_filter Pose3 values).*2.
Proof.
  unfold rows_of, extractPose3.
  rewrite <- (length_fmap snd (Values_filter Pose3 values)).
  rewrite <- list_fmap_compose.
  destruct (extract_rows 12 (λ kv : Key * Pose3, Pose3_layout kv.2)
              (λ j kv result,
                 let R := Rot3_matrix (Pose3_rotation kv.2) in
                 let result := set_row_segment j 0 3 (Matrix3_row R 0) result in
                 let result := set_row_segment j 3 3 (Matrix3_row R 1) result in
                 let result := set_row_segment j 6 3 (Matrix3_row R 2) result in
                 let result :=
                   set_row_tail j 3
                     (Point3_vector (Pose3_translation kv.2)) result in
                 result)
              (Values_filter Pose3 values)) as (Hrows & Hr & Hc).
  - done.
  - intros. by apply extractPose3_step_coeff.
  - done.
  - rewrite length_fmap. done.
Qed.
End ExtractFacts.

(** ** Perturbation *)

Section PerturbFacts.
Context `{Geometry} `{!Sampling}.

(** The walk over the live store: [pre] holds the entries already visited
    (and possibly replaced), [suf] the entries still to visit. Keys are
    unique, so replacing the value at a visited key never touches [suf]. *)
Lemma for_each_perturb T `{!ValueKind T} (retract : T → Vector → T)
    (suf pre : Values) (sampler : Sampler) :
  NoDup (pre ++ suf).*1 →
  ∃ sampler',
    for_each
      (λ key state,
         match Values_find state.1 key ≫= from_Value with
         | Some value => perturb_body T retract key value state
         | None => (state, Ok ())
         end)
      suf.*1 (pre ++ suf, sampler) =
    ((pre ++ retract_entries T retract suf
               (Sampler_draws (length (Values_filter T suf)) sampler),
      sampler'), Ok ()).
Proof.
  revert pre sampler.
  induction suf as [|[k v] rest IH]; intros pre sampler Hnodup; simpl.
  - by eexists.
  - assert (k ∉ pre.*1) as Hk.
    { rewrite fmap_app in Hnodup. apply NoDup_app in Hnodup as (_ & Hdisj & _).
      intros Hin. apply (Hdisj k Hin). left. }
    assert (Values_find (pre ++ (k, v) :: rest) k = Some v) as Hfind.
    { rewrite Values_find_app.
      rewrite (proj2 (Values_find_None pre k) Hk). simpl.
      by rewrite decide_True. }
    rewrite Hfind. simpl.
    assert (∀ v', NoDup ((pre ++ [(k, v')]) ++ rest).*1) as Hnodup'.
    { intros v'. rewrite <- app_assoc. simpl.
      rewrite fmap_app in Hnodup |- *. done. }
    destruct (from_Value v) as [t|] eqn:Ht; simpl.
    + unfold perturb_body at 1. simpl.
      destruct (Sampler_sample sampler) as [noise sampler1]. simpl.
      unfold Values_update. rewrite Hfind, Ht.
      rewrite Values_replace_app by done.
      destruct (IH (pre ++ [(k, to_Value (retract t noise))]) sampler1)
        as [sampler' Hrun]; [apply Hnodup'|].
      rewrite <- !app_assoc in Hrun. exists sampler'. exact Hrun.
    + destruct (IH (pre ++ [(k, v)]) sampler) as [sampler' Hrun];
        [apply Hnodup'|].
      rewrite <- !app_assoc in Hrun. exists sampler'. exact Hrun.
Qed.

Lemma foreach_filtered_perturb T `{!ValueKind T} (retract : T → Vector → T)
    (values : Values) (sampler : Sampler) :
  Values_wf values →
  ∃ sampler',
    foreach_filtered T (perturb_body T retract) values sampler =
    ((retract_entries T retract values
        (Sampler_draws (length (Values_filter T values)) sampler),
      sampler'), Ok ()).
Proof.
  intros Hwf. unfold foreach_filtered, Values_keys.
  apply (for_each_perturb T retract values [] sampler).
  by apply Values_wf_NoDup.
Qed.

Lemma perturbPoint2_draws (values : Values) sigma seed :
  Values_wf values →
  perturbPoint2 values sigma seed =
    (retract_entries Point2 Point2_retract values
       (Sampler_draws (length (Values_filter Point2 values))
          (Sampler_new (perturbPoint2_model sigma) (default 42%Z seed))),
     Ok ()).
Proof.
  intros Hwf. unfold perturbPoint2.
  destruct (foreach_filtered_perturb Point2 Point2_retract values
              (Sampler_new (perturbPoint2_model sigma) (default 42%Z seed)) Hwf)
    as [sampler' ->].
  done.
Qed.

Lemma perturbPose2_draws (values : Values) sigmaT sigmaR seed :
  Values_wf values →
  perturbPose2 values sigmaT sigmaR seed =
    (retract_entries Pose2 Pose2_retract values
       (Sampler_draws (length (Values_filter Pose2 values))
          (Sampler_new (perturbPose2_model sigmaT sigmaR) (default 42%Z seed))),
     Ok ()).
Proof.
  intros Hwf. unfold perturbPose2.
  destruct (foreach_filtered_perturb Pose2 Pose2_retract values
              (Sampler_new (perturbPose2_model sigmaT sigmaR)
                 (default 42%Z seed)) Hwf)
    as [sampler' ->].
  done.
Qed.

Lemma perturbPoint3_draws (values : Values) sigma seed :
  Values_wf values →
  perturbPoint3 values sigma seed =
    (retract_entries Point3 Point3_retract values
       (Sampler_draws (length (Values_filter Point3 values))
          (Sampler_new (perturbPoint3_model sigma) (default 42%Z seed))),
     Ok ()).
Proof.
  intros Hwf. unfold perturbPoint3.
  destruct (foreach_filtered_perturb Point3 Point3_retract values
              (Sampler_new (perturbPoint3_model sigma) (default 42%Z seed)) Hwf)
    as [sampler' ->].
  done.
Qed.

(** Retracting by a vector that [retract] ignores changes nothing. *)
Lemma retract_entries_neutral T `{!ValueKind T} (retract : T → Vector → T)
    (z : Vector) (values : Values) (n : nat) :
  (∀ value, retract value z = value) →
  retract_entries T retract values (replicate n z) = values.
Proof.
  intros Hz. revert n.
  induction values as [|[k v] rest IH]; intros n; simpl; [done|].
  destruct (from_Value v) as [t|] eqn:Ht.
  - destruct n as [|n]; simpl; [done|].
    by rewrite Hz, IH, <- (to_from_Value _ _ Ht).
  - by rewrite IH.
Qed.
End PerturbFacts.

(** ** Local to world coordinates *)

Section RetargetFacts.
Context `{Geometry}.

Lemma Values_insert_present T `{!ValueKind T} (world : Values) key (val : T) w :
  Values_find world key = Some w →
  Values_insert key val world = Throw (ValuesKeyAlreadyExists key).
Proof. unfold Values_insert. by intros ->. Qed.

Lemma Values_insert_absent T `{!ValueKind T} (world : Values) key (val : T) :
  Values_find world key = None →
  Values_insert key val world = Ok (Values_place key (to_Value val) world).
Proof. unfold Values_insert. by intros ->. Qed.

(** One iteration adds the retargeted value of [key], unless [world] has the
    key already or [local] holds neither a pose nor a point there. *)
Lemma localToWorld_step_find (local : Values) base (world : Values) key k :
  Values_find (localToWorld_step local base world key) k =
    match Values_find world k with
    | Some w => Some w
    | None => if decide (k = key) then retarget_value local base key else None
    end.
Proof.
  unfold localToWorld_step, retarget_value, Values_at.
  destruct (Values_find world key) as [w|] eqn:Hw.
  - assert (localToWorld_step local base world key = world) as Hsame.
    { unfold localToWorld_step, Values_at.
      destruct (Values_find local key) as [[]|]; simpl;
        by rewrite ?(Values_insert_present _ _ _ _ w) by done. }
    unfold localToWorld_step, Values_at in Hsame. rewrite Hsame.
    destruct (Values_find world k) eqn:Hk; [done|].
    case_decide; [congruence | done].
  - destruct (Values_find local key) as [[]|]; simpl;
      rewrite ?Values_insert_absent by done;
      rewrite ?Values_find_place by done;
      (destruct (decide (k = key)) as [->|Hne];
       [by rewrite ?Hw | by destruct (Values_find world k)]).
Qed.

Lemma localToWorld_step_wf (local : Values) base (world : Values) key :
  Values_wf world → Values_wf (localToWorld_step local base world key).
Proof.
  intros Hwf. unfold localToWorld_step, Values_at.
  destruct (Values_find world key) as [w|] eqn:Hw.
  - destruct (Values_find local key) as [[]|]; simpl;
      by rewrite ?(Values_insert_present _ _ _ _ w) by done.
  - destruct (Values_find local key) as [[]|]; simpl;
      rewrite ?Values_insert_absent by done; try done;
      (apply Values_wf_place; [done | by apply Values_find_None]).
Qed.

Lemma localToWorld_foldl_find (local : Values) base keys (world : Values) k :
  Values_find (foldl (localToWorld_step local base) world keys) k =
    match Values_find world k with
    | Some w => Some w
    | None => if decide (k ∈ keys) then retarget_value local base k else None
    end.
Proof.
  revert world. induction keys as [|key keys IH]; intros world; cbn [foldl].
  - destruct (Values_find world k); [done|].
    rewrite decide_False; [done | apply not_elem_of_nil].
  - rewrite IH, localToWorld_step_find.
    destruct (Values_find world k); [done|].
    destruct (decide (k = key)) as [->|Hne].
    + rewrite (decide_True (P:=key ∈ key :: keys)) by left.
      destruct (retarget_value local base key); [done|]. by case_decide.
    + destruct (decide (k ∈ keys)) as [Hin|Hnin].
      * by rewrite decide_True by (by right).
      * rewrite decide_False; [done|]. by apply not_elem_of_cons.
Qed.

Lemma localToWorld_foldl_wf (local : Values) base keys (world : Values) :
  Values_wf world → Values_wf (foldl (localToWorld_step local base) world keys).
Proof.
  revert world. induction keys as [|key keys IH]; intros world Hwf; simpl.
  - done.
  - by apply IH, localToWorld_step_wf.
Qed.
End RetargetFacts.

(** ** Projection factors and reprojection errors *)

Section FactorFacts.
Context `{Geometry} `{!FactorEvaluation}.

Lemma for_each_push {A B} (F : A → B) (l : list A) (graph : list B) :
  for_each (λ k graph, (graph ++ [F k], Ok ())) l graph =
    (graph ++ (F <$> l), Ok ()).
Proof.
  revert graph. induction l as [|a l IH]; intros graph; simpl.
  - by rewrite app_nil_r.
  - by rewrite IH, <- app_assoc.
Qed.

Lemma fmap_seq_Vector_at {B} (F : nat → double → B) (J : Vector) :
  (λ k, F k (Vector_at J k)) <$> seq 0 (length J) = imap F J.
Proof.
  apply list_eq. intros k. rewrite list_lookup_fmap, list_lookup_imap.
  destruct (J !! k) as [d|] eqn:Hd; simpl.
  - rewrite lookup_seq_lt by (by eapply lookup_lt_Some). simpl.
    unfold Vector_at. by rewrite Hd.
  - rewrite lookup_seq_ge; [done|]. by apply lookup_ge_None.
Qed.

Lemma count_projection_factors (graph : NonlinearFactorGraph) (K0 : nat) :
  foldl (λ K f, match dynamic_pointer_cast f with
                | Some _ => S K
                | None => K
                end) K0 graph =
    K0 + length (omap dynamic_pointer_cast graph).
Proof.
  revert K0. induction graph as [|f graph IH]; intros K0; [simpl; lia|].
  cbn [foldl omap list_omap].
  destruct (dynamic_pointer_cast f); rewrite IH; cbn [length]; lia.
Qed.

Lemma fill_projection_factors {M} (step : nat → GenericProjectionFactor → M → M)
    (graph : NonlinearFactorGraph) (errors : M) (k : nat) :
  foldl (λ '(errors, k) f,
           match dynamic_pointer_cast f with
           | Some p => (step k p errors, S k)
           | None => (errors, k)
           end) (errors, k) graph =
  foldl (λ '(errors, k) p, (step k p errors, S k)) (errors, k)
        (omap dynamic_pointer_cast graph).
Proof.
  revert errors k. induction graph as [|f graph IH]; intros errors k; [done|].
  cbn [foldl omap list_omap].
  destruct (dynamic_pointer_cast f); by rewrite IH.
Qed.
End FactorFacts.

(** ** Facts about the exact instance *)

Section ExactFacts.
Import Exact.

Lemma Exact_zero_scaled (sigmas : list Z) (r : Z) :
  Forall (λ sigma, sigma = 0%Z) sigmas →
  (λ sigma, sigma * r)%Z <$> sigmas = replicate (length sigmas) 0%Z.
Proof.
  induction 1 as [|sigma sigmas -> _ IH]; simpl; [done|]. f_equal. exact IH.
Qed.

Lemma Exact_zero_draws (sigmas : list Z) (seed : Z) (n : nat) :
  Forall (λ sigma, sigma = 0%Z) sigmas →
  Sampler_draws n ((sigmas, seed) : Sampler) =
    replicate n (replicate (length sigmas) 0%Z).
Proof.
  intros Hzero. revert seed. induction n as [|n IH]; intros seed; [done|].
  cbn [Sampler_draws Sampler_sample Exact.sampling replicate].
  by rewrite IH, Exact_zero_scaled.
Qed.

Lemma Exact_add2_zero (p : Point2) : Exact.add2 p [0%Z; 0%Z] = p.
Proof. destruct p as [x y]. unfold Exact.add2. simpl. by rewrite !Z.add_0_r. Qed.

Lemma Exact_add3_zero (p : Point3) : Exact.add3 p [0%Z; 0%Z; 0%Z] = p.
Proof. destruct p as [x y z]. unfold Exact.add3. simpl. by rewrite !Z.add_0_r. Qed.
End ExactFacts.

(** ** The claims *)

(** C1. For every store, each of [extractPoint2], [extractPoint3],
    [extractPose2] and [extractPose3] returns a matrix with exactly one row
    per entry of its type, the rows in ascending key order, laid out in the
    fixed columns of the type: 2 columns x, y for 2-D points; 3 columns
    x, y, z for 3-D points; 3 columns x, y, heading for 2-D poses; 12
    columns, the rotation row by row and then the translation, for 3-D
    poses. The row count is the number of entries of the type, so a store
    without such entries gives a matrix of zero rows, and no case throws. *)
Theorem extract_rows_in_key_order `{Geometry} (values : Values) :
  Values_wf values →
  (entries_in_key_order Point2 values (Values_filter Point2 values) ∧
   rows_of (extractPoint2 values) 2 Point2_layout
     (Values_filter Point2 values).*2) ∧
  (entries_in_key_order Point3 values (Values_filter Point3 values) ∧
   rows_of (extractPoint3 values) 3 Point3_layout
     (Values_filter Point3 values).*2) ∧
  (entries_in_key_order Pose2 values (Values_filter Pose2 values) ∧
   rows_of (extractPose2 values) 3 Pose2_layout
     (Values_filter Pose2 values).*2) ∧
  (entries_in_key_order Pose3 values (Values_filter Pose3 values) ∧
   rows_of (extractPose3 values) 12 Pose3_layout
     (Values_filter Pose3 values).*2).
Proof.
  intros Hwf. unfold entries_in_key_order.
  split_and!;
    auto using Values_filter_elem_of, Values_filter_sorted,
      extractPoint2_rows, extractPoint3_rows, extractPose2_rows,
      extractPose3_rows.
Qed.

Lemma extract_rows_in_key_order_witness :
  Values_wf Exact.store ∧
  Matrix_to_rows (extractPoint2 Exact.store) =
    [[10; 11]; [30; 31]; [50; 51]]%Z ∧
  Matrix_to_rows (extractPose3 Exact.store) =
    [[1; 0; 0; 0; 1; 0; 0; 0; 1; 40; 41; 42]]%Z ∧
  rows (extractPose2 Exact.empty_store) = 0.
Proof.
  assert (Values_wf Exact.store) as Hwf.
  { unfold Values_wf. simpl. repeat constructor; done. }
  split; [exact Hwf|].
  destruct (extract_rows_in_key_order Exact.store Hwf)
    as ((_ & _ & _ & E2) & _ & _ & (_ & _ & _ & E3)).
  rewrite E2, E3. split_and!; reflexivity.
Defined.

(** C2. For every graph and store, [reprojectionErrors] returns a matrix
    of 2 rows and K columns, K being the number of factors of the graph
    that the dynamic cast recognises as projection factors. Column k holds
    the unwhitened error of the k-th such factor, in the order the factors
    have in the graph; other factors (and null pointers) contribute nothing,
    and the empty graph gives a 2x0 matrix. *)
Theorem reprojectionErrors_columns `{Geometry} `{!FactorEvaluation}
    (graph : NonlinearFactorGraph) (values : Values) :
  let factors := omap dynamic_pointer_cast graph in
  let errors := reprojectionErrors graph values in
  rows errors = 2 ∧ cols errors = length factors ∧
  Matrix_to_cols errors =
    (λ p, [Vector_at (unwhitenedError p values) 0;
           Vector_at (unwhitenedError p values) 1]) <$> factors.
Proof.
  intros factors errors. unfold errors, reprojectionErrors.
  rewrite count_projection_factors, fill_projection_factors. simpl.
  fold factors.
  destruct (fill_cols 2 (λ p, unwhitenedError p values) factors
              (Matrix_new 2 (length factors)) 0) as (Hr & Hc & Hcoeff);
    [done|].
  simpl in Hc. split_and!; [done..|].
  rewrite (Matrix_to_cols_filled (λ p, unwhitenedError p values) factors).
  - by rewrite Hr.
  - done.
  - intros i c p Hp Hi. rewrite Hcoeff by lia.
    rewrite Nat.sub_0_r, Hp. by rewrite decide_True by lia.
Qed.

(** C3. For every store [local], base pose and key list (all keys of the
    store when the list is empty or omitted), [localToWorld] builds a fresh
    store that, at each listed key where [local] holds a 2-D pose A, holds
    [base.compose(A)]; at each listed key where [local] holds a 2-D point
    B, holds [base.transform_from(B)]; and has no entry at any other key:
    a key that is not listed, that [local] lacks, or whose value is of
    another type gives no entry and no exception. The result is a store
    with ascending keys. [local] is taken by const reference: the function
    has no effect on it. *)
Theorem localToWorld_retargets `{Geometry} (local : Values) (base : Pose2)
    (user_keys : option (list Key)) (key : Key) :
  let keys :=
    if decide (length (default [] user_keys) = 0)
    then Values_keys local else default [] user_keys in
  let world := localToWorld local base user_keys in
  Values_find world key =
    (if decide (key ∈ keys) then retarget_value local base key else None) ∧
  Values_wf world.
Proof.
  intros keys world. unfold world, localToWorld. fold keys. split.
  - by rewrite localToWorld_foldl_find.
  - apply localToWorld_foldl_wf. constructor.
Qed.

(** C4. For every graph, pose key [i], key vector [J] of length K and
    pixel matrix [Z] of 2 rows and K columns, [insertProjectionFactors]
    appends exactly K projection factors to the graph, in column order; the
    k-th binds the pose key [i], the landmark key [J(k)], the pixel in
    column k of [Z], the noise model, the calibration and the sensor offset
    it was given ([Pose3()] when the offset is omitted). The factors that
    were in the graph stay in front, unchanged. *)
Theorem insertProjectionFactors_appends `{Geometry}
    (graph : NonlinearFactorGraph) (i : Key) (J : Vector) (Z : Matrix)
    (model : SharedNoiseModel) (K : Cal3_S2_ptr)
    (body_P_sensor : option Pose3) :
  rows Z = 2 → cols Z = length J →
  let appended :=
    imap (λ k key,
            projection_factor
              (mkGenericProjectionFactor
                 (mkPoint2 (coeff Z 0 k) (coeff Z 1 k)) model i
                 (double_to_Key key) K
                 (default Pose3_identity body_P_sensor))) J in
  insertProjectionFactors graph i J Z model K body_P_sensor =
    (graph ++ appended, Ok ()) ∧
  length appended = length J.
Proof.
  intros Hrows Hcols appended. subst appended.
  split; [|by rewrite length_imap].
  unfold insertProjectionFactors.
  rewrite decide_False by (by intros []).
  rewrite decide_False by (by intros []).
  rewrite for_each_push, Hcols. do 2 f_equal.
  apply (fmap_seq_Vector_at
           (λ k key,
              projection_factor
                (mkGenericProjectionFactor
                   (mkPoint2 (coeff Z 0 k) (coeff Z 1 k)) model i
                   (double_to_Key key) K
                   (default Pose3_identity body_P_sensor)))).
Qed.

Lemma insertProjectionFactors_appends_witness :
  rows Exact.pixels = 2 ∧ cols Exact.pixels = length Exact.landmarks ∧
  (insertProjectionFactors Exact.prior_graph 2%N Exact.landmarks
     Exact.pixels () () None).1 =
    Exact.prior_graph ++
    [Exact.projection 0 100 8%N; Exact.projection 1 101 9%N].
Proof.
  split_and!; [reflexivity..|].
  destruct (insertProjectionFactors_appends Exact.prior_graph 2%N
              Exact.landmarks Exact.pixels () () None eq_refl eq_refl)
    as [-> _].
  reflexivity.
Defined.

(** C5. [insertBackprojections] and [insertProjectionFactors] throw
    [std::invalid_argument] whenever the pixel matrix [Z] does not have 2
    rows or its column count differs from the length of the key vector [J].
    The exception is thrown before the loop: the store and the graph are
    what they were. *)
Theorem shape_error_before_mutation `{Geometry} (values : Values)
    (camera : SimpleCamera) (depth : double) (graph : NonlinearFactorGraph)
    (i : Key) (J : Vector) (Z : Matrix) (model : SharedNoiseModel)
    (K : Cal3_S2_ptr) (body_P_sensor : option Pose3) :
  rows Z ≠ 2 ∨ cols Z ≠ length J →
  (∃ what, insertBackprojections values camera J Z depth =
             (values, Throw (invalid_argument what))) ∧
  (∃ what, insertProjectionFactors graph i J Z model K body_P_sensor =
             (graph, Throw (invalid_argument what))).
Proof.
  intros Hshape. unfold insertBackprojections, insertProjectionFactors.
  destruct (decide (rows Z ≠ 2)) as [Hr|Hr]; [by split; eexists|].
  destruct (decide (cols Z ≠ length J)) as [Hc|Hc]; [by split; eexists|].
  by destruct Hshape.
Qed.

Lemma shape_error_before_mutation_witness :
  (rows Exact.pixels_3_rows ≠ 2 ∨
   cols Exact.pixels_3_rows ≠ length Exact.landmarks) ∧
  (∃ what, insertBackprojections Exact.store () Exact.landmarks
             Exact.pixels_3_rows 2%Z =
             (Exact.store, Throw (invalid_argument what))).
Proof.
  assert (rows Exact.pixels_3_rows ≠ 2 ∨
          cols Exact.pixels_3_rows ≠ length Exact.landmarks) as Hshape.
  { left. simpl. lia. }
  split; [exact Hshape|].
  exact (proj1 (shape_error_before_mutation Exact.store () 2%Z [] 0%N
                  Exact.landmarks Exact.pixels_3_rows () () None Hshape)).
Defined.

(** C6. [perturbPoint2], [perturbPose2] and [perturbPoint3] are
    deterministic in the seed: on two stores with the same keys and the
    same values, with the same noise parameters and the same seed (given or
    omitted), they end with the same store. One sample is drawn per entry
    of the type in ascending key order, the i-th such entry being retracted
    by the i-th draw of the sampler; every other entry is left as it is,
    and no exception is thrown. *)
Theorem perturb_deterministic `{Geometry} `{!Sampling}
    (values1 values2 : Values) (sigma sigmaT sigmaR : double)
    (seed : option Z) :
  Values_wf values1 → Values_wf values2 →
  (∀ j, Values_find values1 j = Values_find values2 j) →
  (perturbPoint2 values1 sigma seed = perturbPoint2 values2 sigma seed ∧
   perturbPoint2 values1 sigma seed =
     (retract_entries Point2 Point2_retract values1
        (Sampler_draws (length (Values_filter Point2 values1))
           (Sampler_new (Isotropic_Sigma 2 sigma) (default 42%Z seed))),
      Ok ())) ∧
  (perturbPose2 values1 sigmaT sigmaR seed =
     perturbPose2 values2 sigmaT sigmaR seed ∧
   perturbPose2 values1 sigmaT sigmaR seed =
     (retract_entries Pose2 Pose2_retract values1
        (Sampler_draws (length (Values_filter Pose2 values1))
           (Sampler_new (Diagonal_Sigmas [sigmaT; sigmaT; sigmaR])
              (default 42%Z seed))),
      Ok ())) ∧
  (perturbPoint3 values1 sigma seed = perturbPoint3 values2 sigma seed ∧
   perturbPoint3 values1 sigma seed =
     (retract_entries Point3 Point3_retract values1
        (Sampler_draws (length (Values_filter Point3 values1))
           (Sampler_new (Isotropic_Sigma 3 sigma) (default 42%Z seed))),
      Ok ())).
Proof.
  intros Hwf1 Hwf2 Hsame.
  assert (values1 = values2) as <- by by apply Values_ext.
  split_and!; try done.
  - by apply perturbPoint2_draws.
  - by apply perturbPose2_draws.
  - by apply perturbPoint3_draws.
Qed.

Lemma perturb_deterministic_witness :
  Values_wf Exact.store ∧
  (@perturbPoint2 _ _ Exact.sampling Exact.store 2%Z (Some 7%Z)).1 =
    Exact.store_perturbed.
Proof.
  assert (Values_wf Exact.store) as Hwf.
  { unfold Values_wf. simpl. repeat constructor; done. }
  split; [exact Hwf|].
  destruct (@perturb_deterministic _ _ Exact.sampling
              Exact.store Exact.store 2%Z 0%Z 0%Z
              (Some 7%Z) Hwf Hwf (λ j, eq_refl)) as ((_ & ->) & _).
  reflexivity.
Defined.

(** C7. With every noise magnitude equal to zero ([sigma = 0], and
    [sigmaT = sigmaR = 0] for 2-D poses), for every store and every seed,
    [perturbPoint2], [perturbPose2] and [perturbPoint3] leave the store as
    it was. The sampler and [retract] are collaborators; what is used of
    them is that a sampler of a model whose sigmas are all zero draws zero
    vectors, and that retracting by the zero vector is the identity. *)
Theorem perturb_zero_noise `{Geometry} `{!Sampling} (values : Values)
    (seed : option Z) :
  (∀ model seed n, zero_noise model →
     Sampler_draws n (Sampler_new model seed) =
       replicate n (zero_vector (length (noiseModel_sigmas model)))) →
  (∀ p, Point2_retract p (zero_vector 2) = p) →
  (∀ p, Pose2_retract p (zero_vector 3) = p) →
  (∀ p, Point3_retract p (zero_vector 3) = p) →
  Values_wf values →
  perturbPoint2 values double_zero seed = (values, Ok ()) ∧
  perturbPose2 values double_zero double_zero seed = (values, Ok ()) ∧
  perturbPoint3 values double_zero seed = (values, Ok ()).
Proof.
  intros Hdraws Hpoint2 Hpose2 Hpoint3 Hwf.
  rewrite perturbPoint2_draws, perturbPose2_draws, perturbPoint3_draws by done.
  rewrite !Hdraws by (repeat constructor). simpl length.
  by rewrite !retract_entries_neutral.
Qed.

Lemma perturb_zero_noise_witness :
  Values_wf Exact.store ∧
  @perturbPose2 _ _ Exact.sampling Exact.store 0%Z 0%Z (Some 7%Z) =
    (Exact.store, Ok ()).
Proof.
  assert (Values_wf Exact.store) as Hwf.
  { unfold Values_wf. simpl. repeat constructor; done. }
  split; [exact Hwf|].
  refine (proj1 (proj2 (@perturb_zero_noise _ _ Exact.sampling Exact.store
                          (Some 7%Z) _ _ _ _ Hwf))).
  - intros model seed n Hzero. by apply Exact_zero_draws.
  - apply Exact_add2_zero.
  - apply Exact_add3_zero.
  - apply Exact_add3_zero.
Defined.

(** C8, as amended. For every tag string [s] and index vector [I] whose
    indices are below 2^56, the keys that [createKeyList],
    [createKeyVector] and [createKeySet] build from [s] and [I] are the
    symbolic encodings of ([s[0]], [I[i]]), in the order of [I] for the two
    sequences, and decoding each of them gives back that tag and that
    index. Only [s[0]] is used: a string with the same first character
    gives the same keys. *)
Theorem symbol_keys_decode `{Scalar} (s : string) (I : Vector) :
  Forall (λ d, (double_to_Key d < 2 ^ Symbol.indexBits)%N) I →
  let c := string_front s in
  createKeyList_s s I = (λ d, Symbol.key c (double_to_Key d)) <$> I ∧
  createKeyVector_s s I = (λ d, Symbol.key c (double_to_Key d)) <$> I ∧
  (∀ k, k ∈ createKeySet_s s I ↔
        ∃ d, d ∈ I ∧ k = Symbol.key c (double_to_Key d)) ∧
  Forall (λ d, Symbol.decode (Symbol.key c (double_to_Key d)) =
               (c, double_to_Key d)) I ∧
  (∀ rest, createKeyList_s (String c rest) I = createKeyList_s s I ∧
           createKeyVector_s (String c rest) I = createKeyVector_s s I ∧
           createKeySet_s (String c rest) I = createKeySet_s s I).
Proof.
  intros Hbound c. split_and!.
  - unfold createKeyList_s. by rewrite foldl_snoc_fmap.
  - unfold createKeyVector_s. by rewrite foldl_snoc_fmap.
  - intros k. unfold createKeySet_s. rewrite foldl_set_insert.
    split; [|by right]. intros [Hk|Hk]; [|done]. by apply not_elem_of_empty in Hk.
  - eapply Forall_impl; [exact Hbound|]. intros d Hd.
    by apply Symbol_decode_key.
  - done.
Qed.

Lemma symbol_keys_decode_witness :
  Forall (λ d, (double_to_Key d < 2 ^ Symbol.indexBits)%N) Exact.indices ∧
  Symbol.decode <$> createKeyVector_s "x1" Exact.indices =
    [("x"%char, 3%N); ("x"%char, 0%N); ("x"%char, 72057594037927935%N)].
Proof.
  assert (Forall (λ d, (double_to_Key d < 2 ^ Symbol.indexBits)%N)
            Exact.indices) as Hbound.
  { repeat constructor. }
  split; [exact Hbound|].
  destruct (symbol_keys_decode "x1" Exact.indices Hbound)
    as (_ & -> & _).
  reflexivity.
Defined.

(** C8, as stated, fails: the index 2^56 does not fit the 56 index bits.
    The key built for tag [x] and index 2^56 decodes to tag [y] and
    index 0. *)
Lemma symbol_keys_overflow :
  Symbol.decode <$> createKeyVector_s "x" Exact.index_2_56 =
    [("y"%char, 0%N)] ∧
  ¬ Forall2 (λ k d, Symbol.decode k = (string_front "x", double_to_Key d))
      (createKeyVector_s "x" Exact.index_2_56) Exact.index_2_56.
Proof.
  split; [reflexivity|].
  intros Hall. apply Forall2_cons_1 in Hall as [Hhead _].
  vm_compute in Hhead. discriminate Hhead.
Qed.

(** C9. When the seed is omitted, [perturbPoint2], [perturbPose2] and
    [perturbPoint3] use the seed 42: the sampler whose draws perturb the
    store is [Sampler(model, 42)], built on the noise model of the
    function. A call without seed is therefore the call with seed 42, and
    two calls that omit the seed on the same store give the same result. *)
Theorem default_seed_42 `{Geometry} `{!Sampling} (values : Values)
    (sigma sigmaT sigmaR : double) :
  (perturbPoint2 values sigma None =
     (let '((values', _), r) :=
        foreach_filtered Point2 (perturb_body Point2 Point2_retract) values
          (Sampler_new (Isotropic_Sigma 2 sigma) 42%Z) in
      (values', r)) ∧
   perturbPoint2 values sigma None = perturbPoint2 values sigma (Some 42%Z)) ∧
  (perturbPose2 values sigmaT sigmaR None =
     (let '((values', _), r) :=
        foreach_filtered Pose2 (perturb_body Pose2 Pose2_retract) values
          (Sampler_new (Diagonal_Sigmas [sigmaT; sigmaT; sigmaR]) 42%Z) in
      (values', r)) ∧
   perturbPose2 values sigmaT sigmaR None =
     perturbPose2 values sigmaT sigmaR (Some 42%Z)) ∧
  (perturbPoint3 values sigma None =
     (let '((values', _), r) :=
        foreach_filtered Point3 (perturb_body Point3 Point3_retract) values
          (Sampler_new (Isotropic_Sigma 3 sigma) 42%Z) in
      (values', r)) ∧
   perturbPoint3 values sigma None = perturbPoint3 values sigma (Some 42%Z)).
Proof.
  unfold perturbPoint2, perturbPose2, perturbPoint3, perturbPoint2_model,
    perturbPose2_model, perturbPoint3_model, Vector3.
  cbn [default from_option id]. done.
Qed.

(** C10. [perturbPose2] takes two scalars, [sigmaT] and [sigmaR], and its
    sampler is built on the diagonal noise model of sigmas
    ([sigmaT], [sigmaT], [sigmaR]): the x and the y axis share [sigmaT],
    whatever the caller passes. *)
Theorem perturbPose2_sigmas `{Geometry} `{!Sampling} (values : Values)
    (sigmaT sigmaR : double) (seed : option Z) :
  perturbPose2 values sigmaT sigmaR seed =
    (let '((values', _), r) :=
       foreach_filtered Pose2 (perturb_body Pose2 Pose2_retract) values
         (Sampler_new (Diagonal_Sigmas [sigmaT; sigmaT; sigmaR])
            (default 42%Z seed)) in
     (values', r)) ∧
  noiseModel_sigmas (perturbPose2_model sigmaT sigmaR) =
    [sigmaT; sigmaT; sigmaR] ∧
  Vector_at (noiseModel_sigmas (perturbPose2_model sigmaT sigmaR)) 0 =
    Vector_at (noiseModel_sigmas (perturbPose2_model sigmaT sigmaR)) 1.
Proof. done. Qed.

(** ** The functions on concrete inputs *)

Example reprojectionErrors_empty_graph `{Geometry} `{!FactorEvaluation}
    (values : Values) :
  rows (reprojectionErrors [] values) = 2 ∧
  cols (reprojectionErrors [] values) = 0.
Proof. done. Qed.

Example reprojectionErrors_mixed_graph :
  Matrix_to_cols
    (@reprojectionErrors _ _ Exact.evaluation
       (Exact.prior_graph ++
        [Exact.projection 0 100 7%N; null_factor; Exact.projection 1 101 9%N])
       Exact.store) =
    [[70; -29]; [0; 0]]%Z.
Proof. reflexivity. Qed.

Example localToWorld_requested_keys :
  localToWorld Exact.store Exact.base (Some Exact.requested_keys) =
    Exact.store_in_world.
Proof. reflexivity. Qed.

Example insertBackprojections_duplicate_key :
  insertBackprojections Exact.store () [8%Z; 8%Z] Exact.pixels 2%Z =
    (Exact.store ++ [(8%N, Value_Point3 (Exact.pt3 0 200 2))],
     Throw (ValuesKeyAlreadyExists 8%N)).
Proof. reflexivity. Qed.

Example zero_noise_then_extract :
  Matrix_to_rows
    (extractPoint2
       (@perturbPoint2 _ _ Exact.sampling Exact.two_points 0%Z None).1) =
    [[1; 1]; [2; 2]]%Z.
Proof. reflexivity. Qed.

(** * Further properties of the functions of matlab.h *)

(** ** Key builders *)

Section KeyBuilderFacts.
Context `{Scalar}.

Lemma foldl_set_insert_list {A} (f : A → Key) (l : list A) (acc : gset Key) :
  foldl (λ set d, {[ f d ]} ∪ set) acc l = list_to_set (f <$> l) ∪ acc.
Proof.
  revert acc. induction l as [|a l IH]; intros acc; simpl.
  - by rewrite (left_id_L ∅ (∪)).
  - rewrite IH. apply set_eq. intros k.
    rewrite !elem_of_union, elem_of_singleton. tauto.
Qed.

Lemma size_list_to_set_le (l : list Key) :
  size (list_to_set l : gset Key) ≤ length l.
Proof.
  induction l as [|k l IH].
  - by rewrite list_to_set_nil, size_empty.
  - rewrite list_to_set_cons, size_union_alt, size_singleton. simpl.
    assert (size (list_to_set l ∖ {[k]} : gset Key) ≤
            size (list_to_set l : gset Key)) as Hle.
    { apply subseteq_size. intros j Hj. by apply elem_of_difference in Hj as [? _]. }
    lia.
Qed.

Lemma Symbol_key_inj c1 j1 c2 j2 :
  (j1 < 2 ^ Symbol.indexBits)%N → (j2 < 2 ^ Symbol.indexBits)%N →
  Symbol.key c1 j1 = Symbol.key c2 j2 → c1 = c2 ∧ j1 = j2.
Proof.
  intros H1 H2 Heq.
  pose proof (Symbol_decode_key c1 j1 H1) as D1.
  pose proof (Symbol_decode_key c2 j2 H2) as D2.
  rewrite Heq, D2 in D1. by injection D1.
Qed.

Lemma NoDup_fmap_bounded_keys (c : ascii) (I : Vector) :
  Forall (λ d, (double_to_Key d < 2 ^ Symbol.indexBits)%N) I →
  NoDup (double_to_Key <$> I) →
  NoDup ((λ d, Symbol.key c (double_to_Key d)) <$> I).
Proof.
  induction 1 as [|d I Hd HI IH]; simpl; [constructor|].
  intros [Hnin Hnodup]%NoDup_cons. constructor; [|by apply IH].
  intros (d' & Heq & Hin)%list_elem_of_fmap. apply Hnin.
  apply Symbol_key_inj in Heq as [_ ->]; [by apply list_elem_of_fmap_2|done|].
  by eapply Forall_forall in HI.
Qed.
End KeyBuilderFacts.

(** X1. The builders without tag convert each index to a key and keep the
    order: [createKeyList] and [createKeyVector] return the same sequence,
    one key per index; [createKeySet] is the set of those keys, so repeated
    indices collapse and the set has at most as many keys as there are
    indices. *)
Theorem raw_key_builders `{Scalar} (I : Vector) :
  createKeyList I = double_to_Key <$> I ∧
  createKeyVector I = double_to_Key <$> I ∧
  createKeySet I = list_to_set (createKeyVector I) ∧
  size (createKeySet I) ≤ length I.
Proof.
  assert (createKeyVector I = double_to_Key <$> I) as Hvec.
  { unfold createKeyVector. by rewrite foldl_snoc_fmap. }
  assert (createKeySet I = list_to_set (createKeyVector I)) as Hset.
  { unfold createKeySet. rewrite foldl_set_insert_list, Hvec.
    by rewrite (right_id_L ∅ (∪)). }
  split_and!; [|done..|].
  - unfold createKeyList. by rewrite foldl_snoc_fmap.
  - rewrite Hset, Hvec. etrans; [apply size_list_to_set_le|].
    by rewrite length_fmap.
Qed.

(** X2. With a tag, whatever the indices are, [createKeyList] and
    [createKeyVector] return the same sequence of as many keys as there are
    indices, and [createKeySet] is the set of the keys of that sequence. *)
Theorem symbol_key_builders `{Scalar} (s : string) (I : Vector) :
  createKeyList_s s I = createKeyVector_s s I ∧
  length (createKeyVector_s s I) = length I ∧
  createKeySet_s s I = list_to_set (createKeyVector_s s I) ∧
  size (createKeySet_s s I) ≤ length I.
Proof.
  assert (createKeyVector_s s I =
            (λ d, Symbol.key (string_front s) (double_to_Key d)) <$> I) as Hvec.
  { unfold createKeyVector_s. by rewrite foldl_snoc_fmap. }
  assert (createKeySet_s s I = list_to_set (createKeyVector_s s I)) as Hset.
  { unfold createKeySet_s. rewrite foldl_set_insert_list, Hvec.
    by rewrite (right_id_L ∅ (∪)). }
  split_and!; [done| |done|].
  - by rewrite Hvec, length_fmap.
  - rewrite Hset, Hvec. etrans; [apply size_list_to_set_le|].
    by rewrite length_fmap.
Qed.

(** X3. When the indices are below 2^56 and convert to pairwise different
    integers, the tagged keys are pairwise different too: the key vector has
    no repetition and the key set has one key per index. *)
Theorem symbol_keys_distinct `{Scalar} (s : string) (I : Vector) :
  Forall (λ d, (double_to_Key d < 2 ^ Symbol.indexBits)%N) I →
  NoDup (double_to_Key <$> I) →
  NoDup (createKeyVector_s s I) ∧ size (createKeySet_s s I) = length I.
Proof.
  intros Hbound Hnodup.
  assert (createKeyVector_s s I =
            (λ d, Symbol.key (string_front s) (double_to_Key d)) <$> I) as Hvec.
  { unfold createKeyVector_s. by rewrite foldl_snoc_fmap. }
  assert (NoDup (createKeyVector_s s I)) as Hkeys.
  { rewrite Hvec. by apply NoDup_fmap_bounded_keys. }
  split; [done|].
  unfold createKeySet_s. rewrite foldl_set_insert_list.
  rewrite (right_id_L ∅ (∪)). fold (string_front s). rewrite <- Hvec.
  rewrite size_list_to_set by done. by rewrite Hvec, length_fmap.
Qed.

Lemma symbol_keys_distinct_witness :
  Forall (λ d, (double_to_Key d < 2 ^ Symbol.indexBits)%N) Exact.indices ∧
  NoDup (double_to_Key <$> Exact.indices) ∧
  size (createKeySet_s "x1" Exact.indices) = 3.
Proof.
  assert (Forall (λ d, (double_to_Key d < 2 ^ Symbol.indexBits)%N)
            Exact.indices) as Hbound.
  { repeat constructor. }
  assert (NoDup (double_to_Key <$> Exact.indices)) as Hnodup.
  { apply (bool_decide_unpack _). by vm_compute. }
  split_and!; [done..|].
  exact (proj2 (symbol_keys_distinct "x1" Exact.indices Hbound Hnodup)).
Defined.

(** X4. Tags keep key sets apart: for two tag strings with different first
    characters and indices below 2^56, no key of the one set is a key of
    the other. *)
Theorem symbol_tags_disjoint `{Scalar} (s1 s2 : string) (I1 I2 : Vector) :
  string_front s1 ≠ string_front s2 →
  Forall (λ d, (double_to_Key d < 2 ^ Symbol.indexBits)%N) I1 →
  Forall (λ d, (double_to_Key d < 2 ^ Symbol.indexBits)%N) I2 →
  createKeySet_s s1 I1 ## createKeySet_s s2 I2.
Proof.
  intros Hne Hb1 Hb2. apply elem_of_disjoint. intros k Hk1 Hk2.
  unfold createKeySet_s in Hk1, Hk2.
  apply foldl_set_insert in Hk1 as [Hk1|(d1 & Hd1 & ->)];
    [by apply not_elem_of_empty in Hk1|].
  apply foldl_set_insert in Hk2 as [Hk2|(d2 & Hd2 & Heq)];
    [by apply not_elem_of_empty in Hk2|].
  eapply Forall_forall in Hb1; [|exact Hd1].
  eapply Forall_forall in Hb2; [|exact Hd2].
  by apply Symbol_key_inj in Heq as [? _].
Qed.

Lemma symbol_tags_disjoint_witness :
  string_front "x1" ≠ string_front "l" ∧
  Forall (λ d, (double_to_Key d < 2 ^ Symbol.indexBits)%N) Exact.indices ∧
  createKeySet_s "x1" Exact.indices ## createKeySet_s "l" Exact.indices.
Proof.
  assert (string_front "x1" ≠ string_front "l") as Hne by discriminate.
  assert (Forall (λ d, (double_to_Key d < 2 ^ Symbol.indexBits)%N)
            Exact.indices) as Hbound.
  { repeat constructor. }
  split_and!; [done..|].
  exact (symbol_tags_disjoint "x1" "l" Exact.indices Exact.indices
           Hne Hbound Hbound).
Defined.

(** X5. An empty tag string is read at [s[0]], its terminating NUL: for
    indices below 2^56 the tagged builders then return the keys of the
    builders without tag. *)
Theorem empty_tag_keys `{Scalar} (I : Vector) :
  Forall (λ d, (double_to_Key d < 2 ^ Symbol.indexBits)%N) I →
  createKeyList_s "" I = createKeyList I ∧
  createKeyVector_s "" I = createKeyVector I ∧
  createKeySet_s "" I = createKeySet I.
Proof.
  intros Hbound.
  assert (∀ d, d ∈ I → Symbol.key Ascii.zero (double_to_Key d) = double_to_Key d)
    as Hkey.
  { intros d Hd. eapply Forall_forall in Hbound; [|exact Hd].
    unfold Symbol.key. simpl N_of_ascii.
    rewrite N.shiftl_0_l, N.lor_0_l. unfold wrap64. apply N.mod_small.
    eapply N.lt_trans; [exact Hbound|]. by vm_compute. }
  assert ((λ d, Symbol.key Ascii.zero (double_to_Key d)) <$> I =
          double_to_Key <$> I) as Hmap.
  { apply list_fmap_ext. intros k d Hd. apply Hkey.
    by eapply list_elem_of_lookup_2. }
  unfold createKeyList_s, createKeyList, createKeyVector_s, createKeyVector,
    createKeySet_s, createKeySet. simpl string_front.
  rewrite !foldl_snoc_fmap, !foldl_set_insert_list, Hmap. done.
Qed.

Lemma empty_tag_keys_witness :
  Forall (λ d, (double_to_Key d < 2 ^ Symbol.indexBits)%N) Exact.indices ∧
  createKeyVector_s "" Exact.indices = [3%N; 0%N; 72057594037927935%N].
Proof.
  assert (Forall (λ d, (double_to_Key d < 2 ^ Symbol.indexBits)%N)
            Exact.indices) as Hbound.
  { repeat constructor. }
  split; [done|].
  rewrite (proj1 (proj2 (empty_tag_keys Exact.indices Hbound))).
  reflexivity.
Defined.

(** ** Filtered stores and perturbed stores *)

Section FilterFacts.
Context `{Geometry}.

Lemma Values_filter_cons T `{!ValueKind T} k v (rest : Values) :
  Values_filter T ((k, v) :: rest) =
    match from_Value v with
    | Some t => (k, t) :: Values_filter T rest
    | None => Values_filter T rest
    end.
Proof. unfold Values_filter. simpl. by destruct (from_Value v). Qed.

Lemma Values_filter_keys_subset T `{!ValueKind T} (values : Values) j :
  j ∈ (Values_filter T values).*1 → j ∈ values.*1.
Proof.
  intros ([j' t] & -> & Hin)%list_elem_of_fmap.
  apply Values_filter_elem_of in Hin. by apply (list_elem_of_fmap_2 fst) in Hin.
Qed.

Lemma Values_filter_as_values_keys T `{!ValueKind T} (l : list (Key * T)) :
  (prod_map id to_Value <$> l).*1 = l.*1.
Proof. rewrite <- list_fmap_compose. by apply list_fmap_ext; intros ? []. Qed.

(** A filtered view, read back as a store. *)
Lemma Values_find_filter T `{!ValueKind T} (values : Values) j :
  NoDup values.*1 →
  Values_find (prod_map id to_Value <$> Values_filter T values) j =
    (t ← Values_find values j ≫= from_Value; Some (to_Value t)).
Proof.
  induction values as [|[k v] rest IH]; [done|].
  intros Hnd. rewrite fmap_cons in Hnd. apply NoDup_cons in Hnd as [Hk Hnodup].
  cbn [fst] in Hk. rewrite Values_filter_cons. cbn [Values_find].
  destruct (from_Value v) as [t|] eqn:Hv; simpl.
  - case_decide; [simpl; by rewrite Hv | by apply IH].
  - case_decide as Hj; [|by apply IH]. subst j. simpl. rewrite Hv. simpl.
    apply Values_find_None. rewrite Values_filter_as_values_keys.
    intros Hin. by apply Hk, (Values_filter_keys_subset T).
Qed.

Lemma Values_filter_idemp T `{!ValueKind T} (values : Values) :
  Values_filter T (prod_map id to_Value <$> Values_filter T values) =
    Values_filter T values.
Proof.
  induction values as [|[k v] rest IH]; [done|].
  rewrite Values_filter_cons.
  destruct (from_Value v) as [t|] eqn:Hv; [|done].
  rewrite fmap_cons. cbn [prod_map fst snd id].
  by rewrite Values_filter_cons, from_to_Value, IH.
Qed.

Lemma Values_filter_as_values_other T U `{!ValueKind T} `{!ValueKind U}
    (l : list (Key * T)) :
  (∀ t : T, from_Value (T:=U) (to_Value t) = None) →
  Values_filter U (prod_map id to_Value <$> l) = [].
Proof.
  intros Hother. induction l as [|[k t] l IH]; [done|].
  rewrite fmap_cons. cbn [prod_map fst snd id].
  by rewrite Values_filter_cons, Hother.
Qed.

Lemma retract_entries_keys T `{!ValueKind T} (retract : T → Vector → T)
    (values : Values) (draws : list Vector) :
  (retract_entries T retract values draws).*1 = values.*1.
Proof.
  revert draws. induction values as [|[k v] rest IH]; intros draws; [done|].
  cbn [retract_entries].
  destruct (from_Value v), draws; cbn; by rewrite ?IH.
Qed.

Lemma retract_entries_find_other T `{!ValueKind T} (retract : T → Vector → T)
    (values : Values) (draws : list Vector) j v :
  Values_find values j = Some v → from_Value (T:=T) v = None →
  Values_find (retract_entries T retract values draws) j = Some v.
Proof.
  revert draws. induction values as [|[k w] rest IH]; intros draws; [done|].
  cbn [retract_entries Values_find]. intros Hfind Hv.
  destruct (from_Value w) as [t|] eqn:Hw, draws; cbn [Values_find];
    case_decide; simplify_eq; try done; by apply IH.
Qed.

Lemma retract_entries_find_same T `{!ValueKind T} (retract : T → Vector → T)
    (values : Values) (draws : list Vector) j v (t : T) :
  Values_find values j = Some v → from_Value v = Some t →
  ∃ t', Values_find (retract_entries T retract values draws) j =
          Some (to_Value t').
Proof.
  revert draws. induction values as [|[k w] rest IH]; intros draws; [done|].
  cbn [retract_entries Values_find]. intros Hfind Hv.
  destruct (from_Value w) as [t0|] eqn:Hw, draws; cbn [Values_find];
    case_decide; simplify_eq; eauto.
  all: exists t; rewrite ?Hfind; by rewrite (to_from_Value _ _ Hv).
Qed.

Lemma retract_entries_filter_other T U `{!ValueKind T} `{!ValueKind U}
    (retract : T → Vector → T) (values : Values) (draws : list Vector) :
  (∀ t : T, from_Value (T:=U) (to_Value t) = None) →
  Values_filter U (retract_entries T retract values draws) =
    Values_filter U values.
Proof.
  intros Hother. revert draws.
  induction values as [|[k v] rest IH]; intros draws; [done|].
  cbn [retract_entries].
  destruct (from_Value (T:=T) v) as [t|] eqn:Hv; [destruct draws|];
    rewrite !Values_filter_cons, ?IH; try done.
  by rewrite (to_from_Value _ _ Hv), !Hother.
Qed.

Lemma retract_entries_filter_length T `{!ValueKind T}
    (retract : T → Vector → T) (values : Values) (draws : list Vector) :
  length (Values_filter T (retract_entries T retract values draws)) =
    length (Values_filter T values).
Proof.
  revert draws. induction values as [|[k v] rest IH]; intros draws; [done|].
  cbn [retract_entries].
  destruct (from_Value (T:=T) v) as [t|] eqn:Hv; [destruct draws|];
    rewrite !Values_filter_cons, ?Hv, ?from_to_Value; cbn; by rewrite ?IH.
Qed.

Lemma retract_entries_wf T `{!ValueKind T} (retract : T → Vector → T)
    (values : Values) (draws : list Vector) :
  Values_wf values → Values_wf (retract_entries T retract values draws).
Proof. unfold Values_wf. by rewrite retract_entries_keys. Qed.

(** Retractions of two different types do not see each other. *)
Lemma retract_entries_comm T U `{!ValueKind T} `{!ValueKind U}
    (rT : T → Vector → T) (rU : U → Vector → U) (values : Values)
    (dT dU : list Vector) :
  (∀ t : T, from_Value (T:=U) (to_Value t) = None) →
  (∀ u : U, from_Value (T:=T) (to_Value u) = None) →
  retract_entries T rT (retract_entries U rU values dU) dT =
    retract_entries U rU (retract_entries T rT values dT) dU.
Proof.
  intros HTU HUT. revert dT dU.
  induction values as [|[k v] rest IH]; intros dT dU; [done|].
  destruct (from_Value (T:=T) v) as [t|] eqn:HvT.
  - assert (from_Value (T:=U) v = None) as HvU.
    { by rewrite (to_from_Value _ _ HvT). }
    cbn [retract_entries]. rewrite HvT, HvU. cbn [retract_entries].
    rewrite HvT. destruct dT as [|noise dT]; cbn [retract_entries].
    + by rewrite HvU.
    + by rewrite HTU, IH.
  - destruct (from_Value (T:=U) v) as [u|] eqn:HvU.
    + cbn [retract_entries]. rewrite HvT, HvU. cbn [retract_entries].
      rewrite HvU. destruct dU as [|noise dU]; cbn [retract_entries].
      * by rewrite HvT.
      * by rewrite HUT, IH.
    + cbn [retract_entries]. rewrite HvT, HvU. cbn [retract_entries].
      by rewrite HvT, HvU, IH.
Qed.

(** A store without entries of the type is walked without a draw. *)
Lemma for_each_no_entries T `{!ValueKind T} `{!Sampling}
    (body : Key → T → Values * Sampler → (Values * Sampler) * outcome unit)
    (keys : list Key) (values : Values) (sampler : Sampler) :
  Values_filter T values = [] →
  for_each
    (λ key state,
       match Values_find state.1 key ≫= from_Value with
       | Some value => body key value state
       | None => (state, Ok ())
       end)
    keys (values, sampler) = ((values, sampler), Ok ()).
Proof.
  intros Hnone.
  assert (∀ key, Values_find values key ≫= from_Value (T:=T) = None) as Hfind.
  { intros key. destruct (Values_find values key) as [v|] eqn:Hv; [|done].
    simpl. destruct (from_Value v) as [t|] eqn:Ht; [|done].
    apply Values_find_Some in Hv. rewrite (to_from_Value _ _ Ht) in Hv.
    apply (Values_filter_elem_of T) in Hv. rewrite Hnone in Hv.
    by apply elem_of_nil in Hv. }
  induction keys as [|key keys IH]; [done|].
  cbn [for_each]. cbn [fst]. by rewrite Hfind.
Qed.
End FilterFacts.

(** X6. [allPose3s] of a store is again a store with ascending keys: it
    holds exactly the entries of the store that are 3-D poses, at their
    keys. Taking the poses of the poses changes nothing, [extractPose3]
    returns the same rows for both stores, and the other three extractions
    of the result have no row. *)
Theorem allPose3s_store `{Geometry} (values : Values) :
  Values_wf values →
  Values_wf (allPose3s values) ∧
  (∀ j, Values_find (allPose3s values) j =
          match Values_find values j with
          | Some (Value_Pose3 p) => Some (Value_Pose3 p)
          | _ => None
          end) ∧
  allPose3s (allPose3s values) = allPose3s values ∧
  Matrix_to_rows (extractPose3 (allPose3s values)) =
    Matrix_to_rows (extractPose3 values) ∧
  rows (extractPoint2 (allPose3s values)) = 0 ∧
  rows (extractPoint3 (allPose3s values)) = 0 ∧
  rows (extractPose2 (allPose3s values)) = 0.
Proof.
  intros Hwf. unfold allPose3s. split_and!.
  - unfold Values_wf. rewrite Values_filter_as_values_keys.
    by apply Values_filter_sorted.
  - intros j. rewrite Values_find_filter by (by apply Values_wf_NoDup).
    by destruct (Values_find values j) as [[]|].
  - by rewrite Values_filter_idemp.
  - destruct (extractPose3_rows
                (prod_map id to_Value <$> Values_filter Pose3 values))
      as (_ & _ & ->).
    destruct (extractPose3_rows values) as (_ & _ & ->).
    by rewrite Values_filter_idemp.
  - destruct (extractPoint2_rows
                (prod_map id to_Value <$> Values_filter Pose3 values))
      as (-> & _).
    by rewrite (Values_filter_as_values_other Pose3 Point2).
  - destruct (extractPoint3_rows
                (prod_map id to_Value <$> Values_filter Pose3 values))
      as (-> & _).
    by rewrite (Values_filter_as_values_other Pose3 Point3).
  - destruct (extractPose2_rows
                (prod_map id to_Value <$> Values_filter Pose3 values))
      as (-> & _).
    by rewrite (Values_filter_as_values_other Pose3 Pose2).
Qed.

Lemma allPose3s_store_witness :
  Values_wf Exact.store ∧
  allPose3s Exact.store = Exact.store_poses ∧
  Matrix_to_rows (extractPose3 (allPose3s Exact.store)) =
    Matrix_to_rows (extractPose3 Exact.store).
Proof.
  assert (Values_wf Exact.store) as Hwf.
  { unfold Values_wf. simpl. repeat constructor; done. }
  split_and!; [done | reflexivity |].
  exact (proj1 (proj2 (proj2 (proj2 (allPose3s_store Exact.store Hwf))))).
Defined.

Section PerturbMoreFacts.
Context `{Geometry} `{!Sampling}.

(** What a perturbation of the entries of type [T] keeps. *)
Lemma retract_entries_keeps T `{!ValueKind T} (retract : T → Vector → T)
    (values : Values) (draws : list Vector) :
  Values_wf values →
  Values_keys (retract_entries T retract values draws) = Values_keys values ∧
  Values_wf (retract_entries T retract values draws) ∧
  (∀ j v, Values_find values j = Some v → from_Value (T:=T) v = None →
          Values_find (retract_entries T retract values draws) j = Some v) ∧
  (∀ j (t : T), Values_find values j = Some (to_Value t) →
          ∃ t', Values_find (retract_entries T retract values draws) j =
                  Some (to_Value t')).
Proof.
  intros Hwf. split_and!.
  - apply retract_entries_keys.
  - by apply retract_entries_wf.
  - intros j v Hj Hv. by apply retract_entries_find_other.
  - intros j t Hj. eapply retract_entries_find_same; [exact Hj|].
    apply from_to_Value.
Qed.
End PerturbMoreFacts.

(** X7. On a store with ascending keys, [perturbPoint2], [perturbPose2]
    and [perturbPoint3] never throw and keep the keys of the store. Every
    entry that is not of the perturbed type is the same afterwards, and
    every entry of the perturbed type still holds a value of that type. *)
Theorem perturb_keeps_store `{Geometry} `{!Sampling} (values : Values)
    (sigma sigmaT sigmaR : double) (seed : option Z) :
  Values_wf values →
  (let result := perturbPoint2 values sigma seed in
   result.2 = Ok () ∧ Values_keys result.1 = Values_keys values ∧
   Values_wf result.1 ∧
   (∀ j v, Values_find values j = Some v → Value_as_Point2 v = None →
           Values_find result.1 j = Some v) ∧
   (∀ j p, Values_find values j = Some (Value_Point2 p) →
           ∃ p', Values_find result.1 j = Some (Value_Point2 p'))) ∧
  (let result := perturbPose2 values sigmaT sigmaR seed in
   result.2 = Ok () ∧ Values_keys result.1 = Values_keys values ∧
   Values_wf result.1 ∧
   (∀ j v, Values_find values j = Some v → Value_as_Pose2 v = None →
           Values_find result.1 j = Some v) ∧
   (∀ j p, Values_find values j = Some (Value_Pose2 p) →
           ∃ p', Values_find result.1 j = Some (Value_Pose2 p'))) ∧
  (let result := perturbPoint3 values sigma seed in
   result.2 = Ok () ∧ Values_keys result.1 = Values_keys values ∧
   Values_wf result.1 ∧
   (∀ j v, Values_find values j = Some v → Value_as_Point3 v = None →
           Values_find result.1 j = Some v) ∧
   (∀ j p, Values_find values j = Some (Value_Point3 p) →
           ∃ p', Values_find result.1 j = Some (Value_Point3 p'))).
Proof.
  intros Hwf.
  rewrite perturbPoint2_draws, perturbPose2_draws, perturbPoint3_draws by done.
  cbn [fst snd].
  split; [|split]; (split; [done|]).
  - exact (retract_entries_keeps Point2 Point2_retract values _ Hwf).
  - exact (retract_entries_keeps Pose2 Pose2_retract values _ Hwf).
  - exact (retract_entries_keeps Point3 Point3_retract values _ Hwf).
Qed.

Lemma perturb_keeps_store_witness :
  Values_wf Exact.store ∧
  Values_keys (@perturbPoint2 _ _ Exact.sampling Exact.store 2%Z None).1 =
    Values_keys Exact.store.
Proof.
  assert (Values_wf Exact.store) as Hwf.
  { unfold Values_wf. simpl. repeat constructor; done. }
  split; [done|].
  exact (proj1 (proj2 (proj1 (@perturb_keeps_store _ _ Exact.sampling
                                Exact.store 2%Z 0%Z 0%Z None Hwf)))).
Defined.

(** X8. Perturbations of different types commute: on a store with
    ascending keys, perturbing the 2-D points and then the 2-D poses ends
    with the same store as perturbing the poses first, and likewise for the
    other two pairs. Each call has its own sampler, and the entries one
    call retracts are not those of the other. *)
Theorem perturb_commute `{Geometry} `{!Sampling} (values : Values)
    (sigma2 sigma3 sigmaT sigmaR : double) (seed2 seed3 seedP : option Z) :
  Values_wf values →
  (perturbPose2 (perturbPoint2 values sigma2 seed2).1 sigmaT sigmaR seedP).1 =
    (perturbPoint2 (perturbPose2 values sigmaT sigmaR seedP).1 sigma2 seed2).1 ∧
  (perturbPoint3 (perturbPoint2 values sigma2 seed2).1 sigma3 seed3).1 =
    (perturbPoint2 (perturbPoint3 values sigma3 seed3).1 sigma2 seed2).1 ∧
  (perturbPoint3 (perturbPose2 values sigmaT sigmaR seedP).1 sigma3 seed3).1 =
    (perturbPose2 (perturbPoint3 values sigma3 seed3).1 sigmaT sigmaR seedP).1.
Proof.
  intros Hwf.
  rewrite (perturbPoint2_draws values), (perturbPose2_draws values),
    (perturbPoint3_draws values) by done.
  cbn [fst].
  rewrite !perturbPoint2_draws, !perturbPose2_draws, !perturbPoint3_draws
    by (by apply retract_entries_wf).
  cbn [fst].
  rewrite (retract_entries_filter_other Point2 Pose2),
    (retract_entries_filter_other Pose2 Point2),
    (retract_entries_filter_other Point2 Point3),
    (retract_entries_filter_other Point3 Point2),
    (retract_entries_filter_other Pose2 Point3),
    (retract_entries_filter_other Point3 Pose2) by done.
  split_and!; by apply retract_entries_comm.
Qed.

Lemma perturb_commute_witness :
  Values_wf Exact.store ∧
  (@perturbPose2 _ _ Exact.sampling
     (@perturbPoint2 _ _ Exact.sampling Exact.store 2%Z None).1
     1%Z 3%Z (Some 5%Z)).1 =
  (@perturbPoint2 _ _ Exact.sampling
     (@perturbPose2 _ _ Exact.sampling Exact.store 1%Z 3%Z (Some 5%Z)).1
     2%Z None).1.
Proof.
  assert (Values_wf Exact.store) as Hwf.
  { unfold Values_wf. simpl. repeat constructor; done. }
  split; [done|].
  exact (proj1 (@perturb_commute _ _ Exact.sampling Exact.store 2%Z 0%Z 1%Z
                  3%Z None None (Some 5%Z) Hwf)).
Defined.

(** X9. A store that holds no entry of the perturbed type comes back
    unchanged, with no exception and whatever the noise and the seed; this
    covers the empty store, and needs nothing of the order of the keys. *)
Theorem perturb_without_entries `{Geometry} `{!Sampling} (values : Values)
    (sigma sigmaT sigmaR : double) (seed : option Z) :
  (Values_filter Point2 values = [] →
   perturbPoint2 values sigma seed = (values, Ok ())) ∧
  (Values_filter Pose2 values = [] →
   perturbPose2 values sigmaT sigmaR seed = (values, Ok ())) ∧
  (Values_filter Point3 values = [] →
   perturbPoint3 values sigma seed = (values, Ok ())).
Proof.
  unfold perturbPoint2, perturbPose2, perturbPoint3, foreach_filtered.
  split_and!; intros Hnone; by rewrite for_each_no_entries.
Qed.

Lemma perturb_without_entries_witness :
  Values_filter (@Pose2 _ Exact.geometry) Exact.two_points = [] ∧
  @perturbPose2 _ _ Exact.sampling Exact.two_points 1%Z 3%Z None =
    (Exact.two_points, Ok ()).
Proof.
  split; [reflexivity|].
  exact (proj1 (proj2 (@perturb_without_entries _ _ Exact.sampling
                         Exact.two_points 0%Z 1%Z 3%Z None)) eq_refl).
Defined.

(** ** Backprojection *)

Section BackprojectFacts.
Context `{Geometry}.

Lemma for_each_fmap {A B S} (g : A → B) (body : B → S → S * outcome unit)
    (l : list A) (s : S) :
  for_each body (g <$> l) s = for_each (λ a, body (g a)) l s.
Proof.
  revert s. induction l as [|a l IH]; intros s; [done|].
  cbn [fmap list_fmap for_each]. destruct (body (g a) s) as [s' [[]|e]]; [|done].
  apply IH.
Qed.

Lemma for_each_app {A S} (body : A → S → S * outcome unit)
    (l1 l2 : list A) (s : S) :
  for_each body (l1 ++ l2) s =
    match for_each body l1 s with
    | (s', Ok _) => for_each body l2 s'
    | (s', Throw e) => (s', Throw e)
    end.
Proof.
  revert s. induction l1 as [|a l1 IH]; intros s; [done|].
  cbn [app for_each]. destruct (body a s) as [s' [[]|e]]; [|done].
  apply IH.
Qed.

Lemma Values_find_lookup (values : Values) i j v :
  NoDup values.*1 → values !! i = Some (j, v) → Values_find values j = Some v.
Proof.
  revert i. induction values as [|[k w] rest IH]; intros i Hnodup Hi; [done|].
  rewrite fmap_cons in Hnodup. apply NoDup_cons in Hnodup as [Hk Hnodup].
  cbn [Values_find]. destruct i as [|i]; simpl in Hi.
  - injection Hi as -> ->. by rewrite decide_True.
  - rewrite decide_False; [by eapply IH|].
    intros ->. apply Hk. apply list_elem_of_lookup_2 in Hi.
    by apply (list_elem_of_fmap_2 fst) in Hi.
Qed.

(** The store after inserting the entries [kvs], one after the other. *)
Lemma foldl_place_find (kvs : list (Key * Point3)) (values : Values) j :
  NoDup kvs.*1 → (∀ k, k ∈ kvs.*1 → Values_find values k = None) →
  Values_find
    (foldl (λ values kv, Values_place kv.1 (to_Value kv.2) values) values kvs) j =
    match Values_find (prod_map id to_Value <$> kvs) j with
    | Some v => Some v
    | None => Values_find values j
    end.
Proof.
  revert values. induction kvs as [|[k p] kvs IH]; intros values Hnodup Hfresh;
    [done|].
  rewrite fmap_cons in Hnodup. apply NoDup_cons in Hnodup as [Hk Hnodup].
  cbn [fst] in Hk. cbn [foldl fst snd]. rewrite IH; [|done|].
  - rewrite fmap_cons. cbn [prod_map fst snd id Values_find].
    rewrite Values_find_place by (apply Hfresh; left).
    destruct (decide (k = j)) as [->|Hne].
    + rewrite decide_True by done.
      rewrite (proj2 (Values_find_None _ j)); [done|].
      by rewrite Values_filter_as_values_keys.
    + rewrite (decide_False (P:=j = k)) by done. done.
  - intros k' Hk'. rewrite Values_find_place by (apply Hfresh; left).
    rewrite decide_False by (by intros ->). apply Hfresh. by right.
Qed.

Lemma foldl_place_wf (kvs : list (Key * Point3)) (values : Values) :
  NoDup kvs.*1 → (∀ k, k ∈ kvs.*1 → Values_find values k = None) →
  Values_wf values →
  Values_wf
    (foldl (λ values kv, Values_place kv.1 (to_Value kv.2) values) values kvs).
Proof.
  revert values. induction kvs as [|[k p] kvs IH]; intros values Hnodup Hfresh Hwf;
    [done|].
  rewrite fmap_cons in Hnodup. apply NoDup_cons in Hnodup as [Hk Hnodup].
  cbn [fst] in Hk. cbn [foldl fst snd]. apply IH; [done| |].
  - intros k' Hk'. rewrite Values_find_place by (apply Hfresh; left).
    rewrite decide_False by (by intros ->). apply Hfresh. by right.
  - apply Values_wf_place; [done|]. apply Values_find_None, Hfresh. left.
Qed.

Lemma Values_filter_place_other U `{!ValueKind U} j v (values : Values) :
  from_Value (T:=U) v = None →
  Values_filter U (Values_place j v values) = Values_filter U values.
Proof.
  intros Hv. induction values as [|[k w] rest IH]; cbn [Values_place].
  - by rewrite Values_filter_cons, Hv.
  - case_decide.
    + by rewrite (Values_filter_cons U j), Hv.
    + by rewrite !(Values_filter_cons U k), IH.
Qed.

Lemma Values_filter_place_length T `{!ValueKind T} j (t : T) (values : Values) :
  length (Values_filter T (Values_place j (to_Value t) values)) =
    S (length (Values_filter T values)).
Proof.
  induction values as [|[k w] rest IH]; cbn [Values_place].
  - by rewrite Values_filter_cons, from_to_Value.
  - case_decide.
    + by rewrite (Values_filter_cons T j), from_to_Value.
    + rewrite !(Values_filter_cons T k).
      destruct (from_Value w); cbn [length]; by rewrite IH.
Qed.

Lemma foldl_place_filter_other U `{!ValueKind U} (kvs : list (Key * Point3))
    (values : Values) :
  (∀ p : Point3, from_Value (T:=U) (to_Value p) = None) →
  Values_filter U
    (foldl (λ values kv, Values_place kv.1 (to_Value kv.2) values) values kvs) =
    Values_filter U values.
Proof.
  intros Hother. revert values.
  induction kvs as [|[k p] kvs IH]; intros values; [done|].
  cbn [foldl fst snd]. by rewrite IH, Values_filter_place_other.
Qed.

Lemma foldl_place_filter_length (kvs : list (Key * Point3)) (values : Values) :
  length
    (Values_filter Point3
       (foldl (λ values kv, Values_place kv.1 (to_Value kv.2) values)
              values kvs)) =
    length (Values_filter Point3 values) + length kvs.
Proof.
  revert values. induction kvs as [|[k p] kvs IH]; intros values;
    cbn [foldl fst snd length]; [lia|].
  rewrite IH, Values_filter_place_length. lia.
Qed.

(** The loop of [insertBackprojections] over entries that are new. *)
Lemma for_each_insert_ok (kvs : list (Key * Point3)) (values : Values) :
  NoDup kvs.*1 → (∀ k, k ∈ kvs.*1 → Values_find values k = None) →
  for_each
    (λ kv values,
       match Values_insert kv.1 kv.2 values with
       | Ok values' => (values', Ok ())
       | Throw e => (values, Throw e)
       end) kvs values =
    (foldl (λ values kv, Values_place kv.1 (to_Value kv.2) values) values kvs,
     Ok ()).
Proof.
  revert values. induction kvs as [|[k p] kvs IH]; intros values Hnodup Hfresh;
    [done|].
  rewrite fmap_cons in Hnodup. apply NoDup_cons in Hnodup as [Hk Hnodup].
  cbn [fst] in Hk. cbn [for_each foldl fst snd].
  rewrite Values_insert_absent by (apply Hfresh; left).
  apply IH; [done|].
  intros k' Hk'. rewrite Values_find_place by (apply Hfresh; left).
  rewrite decide_False by (by intros ->). apply Hfresh. by right.
Qed.

(** The loop succeeds exactly on entries that are new. *)
Lemma for_each_insert_outcome (kvs : list (Key * Point3)) (values : Values) :
  (for_each
     (λ kv values,
        match Values_insert kv.1 kv.2 values with
        | Ok values' => (values', Ok ())
        | Throw e => (values, Throw e)
        end) kvs values).2 = Ok () ↔
  NoDup kvs.*1 ∧ ∀ k, k ∈ kvs.*1 → Values_find values k = None.
Proof.
  revert values. induction kvs as [|[k p] kvs IH]; intros values.
  - split; [|done]. intros _. split; [constructor|].
    intros k Hk. by apply elem_of_nil in Hk.
  - rewrite fmap_cons. cbn [for_each fst snd].
    destruct (Values_find values k) as [w|] eqn:Hk.
    + rewrite (Values_insert_present _ _ _ _ w) by done. cbn [snd].
      split; [done|]. intros [_ Hfresh].
      specialize (Hfresh k (list_elem_of_here _ _)). congruence.
    + rewrite Values_insert_absent by done. rewrite IH, NoDup_cons.
      split.
      * intros [Hnodup Hfresh]. split_and!; [|done|].
        -- intros Hin. specialize (Hfresh k Hin).
           rewrite Values_find_place, decide_True in Hfresh by done. done.
        -- intros k' [->|Hk']%elem_of_cons; [done|].
           specialize (Hfresh k' Hk').
           rewrite Values_find_place in Hfresh by done.
           by case_decide.
      * intros [[Hnin Hnodup] Hfresh]. split; [done|].
        intros k' Hk'. rewrite Values_find_place by done.
        rewrite decide_False by (by intros ->). apply Hfresh. by right.
Qed.

(** The entries that [insertBackprojections] inserts, in column order. *)
Lemma insertBackprojections_loop (values : Values) (camera : SimpleCamera)
    (J : Vector) (Z : Matrix) (depth : double) :
  rows Z = 2 → cols Z = length J →
  insertBackprojections values camera J Z depth =
    for_each
      (λ kv values,
         match Values_insert kv.1 kv.2 values with
         | Ok values' => (values', Ok ())
         | Throw e => (values, Throw e)
         end)
      (imap (λ k d, (double_to_Key d,
                     SimpleCamera_backproject camera
                       (mkPoint2 (coeff Z 0 k) (coeff Z 1 k)) depth)) J)
      values.
Proof.
  intros Hrows Hcols. unfold insertBackprojections.
  rewrite decide_False by (by intros []).
  rewrite decide_False by (by intros []).
  rewrite Hcols.
  rewrite <- (fmap_seq_Vector_at
                (λ k d, (double_to_Key d,
                         SimpleCamera_backproject camera
                           (mkPoint2 (coeff Z 0 k) (coeff Z 1 k)) depth)) J).
  by rewrite for_each_fmap.
Qed.

Lemma imap_keys {B} (F : nat → double → B) (J : Vector) :
  (imap (λ k d, (double_to_Key d, F k d)) J).*1 = double_to_Key <$> J.
Proof.
  apply list_eq. intros k. rewrite !list_lookup_fmap, list_lookup_imap.
  by destruct (J !! k).
Qed.
End BackprojectFacts.

(** X10. With a pixel matrix of 2 rows and as many columns as there are
    keys, keys that are pairwise different and a store that holds none of
    them, [insertBackprojections] succeeds: afterwards the store holds, at
    the key of each column, the 3-D point the camera backprojects the pixel
    of that column to at the given depth, and every other key is as it
    was. The keys stay ascending. *)
Theorem insertBackprojections_inserts `{Geometry} (values : Values)
    (camera : SimpleCamera) (J : Vector) (Z : Matrix) (depth : double) :
  rows Z = 2 → cols Z = length J →
  NoDup (double_to_Key <$> J) →
  (∀ d, d ∈ J → Values_find values (double_to_Key d) = None) →
  Values_wf values →
  ∃ values',
    insertBackprojections values camera J Z depth = (values', Ok ()) ∧
    Values_wf values' ∧
    (∀ k d, J !! k = Some d →
       Values_find values' (double_to_Key d) =
         Some (Value_Point3
                 (SimpleCamera_backproject camera
                    (mkPoint2 (coeff Z 0 k) (coeff Z 1 k)) depth))) ∧
    (∀ j, j ∉ double_to_Key <$> J →
       Values_find values' j = Values_find values j).
Proof.
  intros Hrows Hcols Hnodup Hfresh Hwf.
  rewrite insertBackprojections_loop by done.
  set (kvs := imap _ J).
  assert (kvs.*1 = double_to_Key <$> J) as Hkeys by apply imap_keys.
  assert (NoDup kvs.*1) as Hnodup' by (by rewrite Hkeys).
  assert (∀ k, k ∈ kvs.*1 → Values_find values k = None) as Hfresh'.
  { intros k. rewrite Hkeys. intros (d & -> & Hd)%list_elem_of_fmap.
    by apply Hfresh. }
  rewrite for_each_insert_ok by done.
  eexists. split_and!; [done| | |].
  - by apply foldl_place_wf.
  - intros k d Hd. rewrite foldl_place_find by done.
    erewrite (Values_find_lookup _ k); [done| |].
    + by rewrite Values_filter_as_values_keys, Hkeys.
    + rewrite list_lookup_fmap. unfold kvs. rewrite list_lookup_imap, Hd. done.
  - intros j Hj. rewrite foldl_place_find by done.
    rewrite (proj2 (Values_find_None _ j)); [done|].
    by rewrite Values_filter_as_values_keys, Hkeys.
Qed.

Lemma insertBackprojections_inserts_witness :
  rows Exact.pixels = 2 ∧ cols Exact.pixels = length Exact.landmarks ∧
  NoDup (double_to_Key <$> Exact.landmarks) ∧
  Values_wf Exact.store ∧
  ∃ values',
    insertBackprojections Exact.store () Exact.landmarks Exact.pixels 2%Z =
      (values', Ok ()) ∧
    Values_find values' 9%N = Some (Value_Point3 (Exact.pt3 2 202 2)).
Proof.
  assert (NoDup (double_to_Key <$> Exact.landmarks)) as Hnodup.
  { apply (bool_decide_unpack _). by vm_compute. }
  assert (Values_wf Exact.store) as Hwf.
  { unfold Values_wf. simpl. repeat constructor; done. }
  assert (∀ d, d ∈ Exact.landmarks →
               Values_find Exact.store (double_to_Key d) = None) as Hfresh.
  { intros d Hd. unfold Exact.landmarks in Hd.
    repeat (apply elem_of_cons in Hd as [->|Hd]; [reflexivity|]).
    by apply elem_of_nil in Hd. }
  split_and!; [reflexivity | reflexivity | done | done |].
  destruct (insertBackprojections_inserts Exact.store () Exact.landmarks
              Exact.pixels 2%Z eq_refl eq_refl Hnodup Hfresh Hwf)
    as (values' & Hrun & _ & Hnew & _).
  exists values'. split; [done|].
  exact (Hnew 1 9%Z eq_refl).
Defined.

(** X11. [insertBackprojections] is not atomic. When the key of a column
    is already in the store, or repeats the key of an earlier column, the
    call throws [ValuesKeyAlreadyExists] for that key, and the points of the
    columns before it stay inserted: those keys hold their backprojected
    points, and every other key is as it was. *)
Theorem insertBackprojections_partial `{Geometry} (values : Values)
    (camera : SimpleCamera) (J1 J2 : Vector) (d : double) (Z : Matrix)
    (depth : double) :
  rows Z = 2 → cols Z = length (J1 ++ d :: J2) →
  NoDup (double_to_Key <$> J1) →
  (∀ d', d' ∈ J1 → Values_find values (double_to_Key d') = None) →
  double_to_Key d ∈ double_to_Key <$> J1 ∨
    is_Some (Values_find values (double_to_Key d)) →
  ∃ values',
    insertBackprojections values camera (J1 ++ d :: J2) Z depth =
      (values', Throw (ValuesKeyAlreadyExists (double_to_Key d))) ∧
    (∀ k d', J1 !! k = Some d' →
       Values_find values' (double_to_Key d') =
         Some (Value_Point3
                 (SimpleCamera_backproject camera
                    (mkPoint2 (coeff Z 0 k) (coeff Z 1 k)) depth))) ∧
    (∀ j, j ∉ double_to_Key <$> J1 →
       Values_find values' j = Values_find values j).
Proof.
  intros Hrows Hcols Hnodup Hfresh Hclash.
  rewrite insertBackprojections_loop by done.
  rewrite imap_app, for_each_app. cbn [imap].
  set (kvs := imap _ J1).
  assert (kvs.*1 = double_to_Key <$> J1) as Hkeys by apply imap_keys.
  assert (NoDup kvs.*1) as Hnodup' by (by rewrite Hkeys).
  assert (∀ k, k ∈ kvs.*1 → Values_find values k = None) as Hfresh'.
  { intros k. rewrite Hkeys. intros (d' & -> & Hd)%list_elem_of_fmap.
    by apply Hfresh. }
  rewrite for_each_insert_ok by done.
  cbn [for_each fst snd].
  set (values' := foldl _ values kvs).
  assert (∀ j, Values_find values' j =
               match Values_find (prod_map id to_Value <$> kvs) j with
               | Some v => Some v
               | None => Values_find values j
               end) as Hfind.
  { intros j. by apply foldl_place_find. }
  assert (is_Some (Values_find values' (double_to_Key d))) as [w Hw].
  { rewrite Hfind.
    destruct (Values_find (prod_map id to_Value <$> kvs) (double_to_Key d))
      as [v|] eqn:Hv; [by eexists|].
    destruct Hclash as [Hin|Hsome]; [|done].
    apply Values_find_None in Hv.
    by rewrite Values_filter_as_values_keys, Hkeys in Hv. }
  rewrite (Values_insert_present _ _ _ _ w) by done.
  exists values'. split_and!; [done| |].
  - intros k d' Hd'. rewrite Hfind.
    erewrite (Values_find_lookup _ k); [done| |].
    + by rewrite Values_filter_as_values_keys, Hkeys.
    + rewrite list_lookup_fmap. unfold kvs. rewrite list_lookup_imap, Hd'. done.
  - intros j Hj. rewrite Hfind.
    rewrite (proj2 (Values_find_None _ j)); [done|].
    by rewrite Values_filter_as_values_keys, Hkeys.
Qed.

Lemma insertBackprojections_partial_witness :
  rows Exact.pixels = 2 ∧ cols Exact.pixels = length Exact.landmarks_8_8 ∧
  ∃ values',
    insertBackprojections Exact.store () Exact.landmarks_8_8 Exact.pixels
      2%Z = (values', Throw (ValuesKeyAlreadyExists 8%N)) ∧
    Values_find values' 8%N = Some (Value_Point3 (Exact.pt3 0 200 2)).
Proof.
  split_and!; [reflexivity..|].
  assert (∀ d' : Z, d' ∈ [8%Z] →
            Values_find Exact.store (@double_to_Key Exact.scalar d') = None)
    as Hfresh.
  { intros d' Hd'.
    repeat (apply elem_of_cons in Hd' as [->|Hd']; [reflexivity|]).
    by apply elem_of_nil in Hd'. }
  destruct (insertBackprojections_partial Exact.store () [8%Z] [] 8%Z
              Exact.pixels 2%Z eq_refl eq_refl
              (NoDup_singleton _) Hfresh (or_introl (list_elem_of_here _ _)))
    as (values' & Hrun & Hnew & _).
  exists values'. split; [exact Hrun|].
  exact (Hnew 0 8%Z eq_refl).
Defined.

(** X12. [insertBackprojections] returns normally exactly when the pixel
    matrix has 2 rows and one column per key, the keys are pairwise
    different, and the store holds none of them. *)
Theorem insertBackprojections_succeeds_iff `{Geometry} (values : Values)
    (camera : SimpleCamera) (J : Vector) (Z : Matrix) (depth : double) :
  (insertBackprojections values camera J Z depth).2 = Ok () ↔
  rows Z = 2 ∧ cols Z = length J ∧ NoDup (double_to_Key <$> J) ∧
  ∀ d, d ∈ J → Values_find values (double_to_Key d) = None.
Proof.
  destruct (decide (rows Z = 2)) as [Hrows|Hrows].
  2: { unfold insertBackprojections. rewrite decide_True by done.
       split; [done | by intros []]. }
  destruct (decide (cols Z = length J)) as [Hcols|Hcols].
  2: { unfold insertBackprojections.
       rewrite decide_False by (by intros []). rewrite decide_True by done.
       split; [done | by intros (_ & ? & _)]. }
  rewrite insertBackprojections_loop, for_each_insert_outcome, imap_keys by done.
  split.
  - intros [Hnodup Hfresh]. split_and!; [done..|].
    intros d Hd. by apply Hfresh, list_elem_of_fmap_2.
  - intros (_ & _ & Hnodup & Hfresh). split; [done|].
    intros k (d & -> & Hd)%list_elem_of_fmap. by apply Hfresh.
Qed.

(** X13. After a successful [insertBackprojections], [extractPoint3] has
    one more row per inserted key, and [extractPoint2], [extractPose2] and
    [extractPose3] return the rows they returned before. *)
Theorem extract_after_insertBackprojections `{Geometry} (values : Values)
    (camera : SimpleCamera) (J : Vector) (Z : Matrix) (depth : double) :
  rows Z = 2 → cols Z = length J →
  NoDup (double_to_Key <$> J) →
  (∀ d, d ∈ J → Values_find values (double_to_Key d) = None) →
  let values' := (insertBackprojections values camera J Z depth).1 in
  rows (extractPoint3 values') = rows (extractPoint3 values) + length J ∧
  Matrix_to_rows (extractPoint2 values') = Matrix_to_rows (extractPoint2 values) ∧
  Matrix_to_rows (extractPose2 values') = Matrix_to_rows (extractPose2 values) ∧
  Matrix_to_rows (extractPose3 values') = Matrix_to_rows (extractPose3 values).
Proof.
  intros Hrows Hcols Hnodup Hfresh values'. subst values'.
  rewrite insertBackprojections_loop by done.
  set (kvs := imap _ J).
  assert (kvs.*1 = double_to_Key <$> J) as Hkeys by apply imap_keys.
  assert (NoDup kvs.*1) as Hnodup' by (by rewrite Hkeys).
  assert (∀ k, k ∈ kvs.*1 → Values_find values k = None) as Hfresh'.
  { intros k. rewrite Hkeys. intros (d & -> & Hd)%list_elem_of_fmap.
    by apply Hfresh. }
  rewrite for_each_insert_ok by done. cbn [fst].
  split_and!.
  - destruct (extractPoint3_rows (foldl
                (λ values kv, Values_place kv.1 (to_Value kv.2) values)
                values kvs)) as (-> & _).
    destruct (extractPoint3_rows values) as (-> & _).
    rewrite !length_fmap, foldl_place_filter_length.
    unfold kvs. by rewrite length_imap.
  - destruct (extractPoint2_rows (foldl
                (λ values kv, Values_place kv.1 (to_Value kv.2) values)
                values kvs)) as (_ & _ & ->).
    destruct (extractPoint2_rows values) as (_ & _ & ->).
    by rewrite (foldl_place_filter_other Point2).
  - destruct (extractPose2_rows (foldl
                (λ values kv, Values_place kv.1 (to_Value kv.2) values)
                values kvs)) as (_ & _ & ->).
    destruct (extractPose2_rows values) as (_ & _ & ->).
    by rewrite (foldl_place_filter_other Pose2).
  - destruct (extractPose3_rows (foldl
                (λ values kv, Values_place kv.1 (to_Value kv.2) values)
                values kvs)) as (_ & _ & ->).
    destruct (extractPose3_rows values) as (_ & _ & ->).
    by rewrite (foldl_place_filter_other Pose3).
Qed.

Lemma extract_after_insertBackprojections_witness :
  rows Exact.pixels = 2 ∧ cols Exact.pixels = length Exact.landmarks ∧
  NoDup (double_to_Key <$> Exact.landmarks) ∧
  rows (extractPoint3
          (insertBackprojections Exact.store () Exact.landmarks
             Exact.pixels 2%Z).1) = 3.
Proof.
  assert (NoDup (double_to_Key <$> Exact.landmarks)) as Hnodup.
  { apply (bool_decide_unpack _). by vm_compute. }
  assert (∀ d, d ∈ Exact.landmarks →
               Values_find Exact.store (double_to_Key d) = None) as Hfresh.
  { intros d Hd. unfold Exact.landmarks in Hd.
    repeat (apply elem_of_cons in Hd as [->|Hd]; [reflexivity|]).
    by apply elem_of_nil in Hd. }
  split_and!; [reflexivity | reflexivity | done |].
  rewrite (proj1 (extract_after_insertBackprojections Exact.store ()
                    Exact.landmarks Exact.pixels 2%Z eq_refl eq_refl
                    Hnodup Hfresh)).
  reflexivity.
Defined.

(** ** Projection factors and reprojection errors, composed *)

Section FactorMoreFacts.
Context `{Geometry} `{!FactorEvaluation}.

Lemma insertProjectionFactors_loop (graph : NonlinearFactorGraph) (i : Key)
    (J : Vector) (Z : Matrix) (model : SharedNoiseModel) (K : Cal3_S2_ptr)
    (body_P_sensor : option Pose3) :
  rows Z = 2 → cols Z = length J →
  insertProjectionFactors graph i J Z model K body_P_sensor =
    (graph ++
     imap (λ k key,
             projection_factor
               (mkGenericProjectionFactor
                  (mkPoint2 (coeff Z 0 k) (coeff Z 1 k)) model i
                  (double_to_Key key) K
                  (default Pose3_identity body_P_sensor))) J,
     Ok ()).
Proof.
  intros Hrows Hcols. unfold insertProjectionFactors.
  rewrite decide_False by (by intros []).
  rewrite decide_False by (by intros []).
  rewrite for_each_push, Hcols. do 2 f_equal.
  apply (fmap_seq_Vector_at
           (λ k key,
              projection_factor
                (mkGenericProjectionFactor
                   (mkPoint2 (coeff Z 0 k) (coeff Z 1 k)) model i
                   (double_to_Key key) K
                   (default Pose3_identity body_P_sensor)))).
Qed.

Lemma reprojectionErrors_cols_list (graph : NonlinearFactorGraph)
    (values : Values) :
  cols (reprojectionErrors graph values) =
    length (omap dynamic_pointer_cast graph) ∧
  Matrix_to_cols (reprojectionErrors graph values) =
    (λ p, [Vector_at (unwhitenedError p values) 0;
           Vector_at (unwhitenedError p values) 1]) <$>
      omap dynamic_pointer_cast graph.
Proof.
  unfold reprojectionErrors.
  rewrite count_projection_factors, fill_projection_factors. simpl.
  set (factors := omap dynamic_pointer_cast graph).
  destruct (fill_cols 2 (λ p, unwhitenedError p values) factors
              (Matrix_new 2 (length factors)) 0) as (Hr & Hc & Hcoeff);
    [done|].
  simpl in Hc. split; [done|].
  rewrite (Matrix_to_cols_filled (λ p, unwhitenedError p values) factors).
  - by rewrite Hr.
  - done.
  - intros i c p Hp Hi. rewrite Hcoeff by lia.
    rewrite Nat.sub_0_r, Hp. by rewrite decide_True by lia.
Qed.

Lemma omap_cast_projection {A} (F : nat → A → GenericProjectionFactor)
    (l : list A) :
  omap dynamic_pointer_cast (imap (λ k a, projection_factor (F k a)) l) =
    imap F l.
Proof.
  revert F. induction l as [|a l IH]; intros F; [done|].
  cbn [imap omap list_omap dynamic_pointer_cast]. f_equal. apply IH.
Qed.
End FactorMoreFacts.

(** X14. [insertProjectionFactors] returns normally exactly when the
    pixel matrix has 2 rows and one column per landmark key: repeated
    landmark keys, and keys that no store holds, are accepted. Whatever the
    arguments, the factors the graph had stay at the front of the graph in
    their order. *)
Theorem insertProjectionFactors_succeeds_iff `{Geometry}
    (graph : NonlinearFactorGraph) (i : Key) (J : Vector) (Z : Matrix)
    (model : SharedNoiseModel) (K : Cal3_S2_ptr)
    (body_P_sensor : option Pose3) :
  ((insertProjectionFactors graph i J Z model K body_P_sensor).2 = Ok () ↔
   rows Z = 2 ∧ cols Z = length J) ∧
  graph `prefix_of` (insertProjectionFactors graph i J Z model K body_P_sensor).1.
Proof.
  destruct (decide (rows Z = 2)) as [Hrows|Hrows].
  2: { unfold insertProjectionFactors. rewrite decide_True by done.
       split; [|done]. split; [done | by intros []]. }
  destruct (decide (cols Z = length J)) as [Hcols|Hcols].
  2: { unfold insertProjectionFactors.
       rewrite decide_False by (by intros []). rewrite decide_True by done.
       split; [|done]. split; [done | by intros []]. }
  rewrite insertProjectionFactors_loop by done. cbn [fst snd].
  split; [done|]. by apply prefix_app_r.
Qed.

(** X15. Factor assembly followed by residual collection: after a
    successful [insertProjectionFactors], [reprojectionErrors] returns the
    columns it returned for the graph before, followed by one column per
    landmark key, the k-th being the unwhitened error of the factor built
    from column k of the pixel matrix. *)
Theorem reprojectionErrors_after_insert `{Geometry} `{!FactorEvaluation}
    (graph : NonlinearFactorGraph) (i : Key) (J : Vector) (Z : Matrix)
    (model : SharedNoiseModel) (K : Cal3_S2_ptr)
    (body_P_sensor : option Pose3) (values : Values) :
  rows Z = 2 → cols Z = length J →
  let graph' :=
    (insertProjectionFactors graph i J Z model K body_P_sensor).1 in
  cols (reprojectionErrors graph' values) =
    cols (reprojectionErrors graph values) + length J ∧
  Matrix_to_cols (reprojectionErrors graph' values) =
    Matrix_to_cols (reprojectionErrors graph values) ++
    imap (λ k key,
            let p :=
              mkGenericProjectionFactor
                (mkPoint2 (coeff Z 0 k) (coeff Z 1 k)) model i
                (double_to_Key key) K
                (default Pose3_identity body_P_sensor) in
            [Vector_at (unwhitenedError p values) 0;
             Vector_at (unwhitenedError p values) 1]) J.
Proof.
  intros Hrows Hcols graph'. subst graph'.
  rewrite insertProjectionFactors_loop by done. cbn [fst].
  destruct (reprojectionErrors_cols_list graph values) as [-> ->].
  edestruct (reprojectionErrors_cols_list) as [-> ->].
  rewrite omap_app, omap_cast_projection. split.
  - by rewrite length_app, length_imap.
  - rewrite fmap_app. f_equal. by rewrite fmap_imap.
Qed.

Lemma reprojectionErrors_after_insert_witness :
  rows Exact.pixels = 2 ∧ cols Exact.pixels = length Exact.landmarks ∧
  cols (@reprojectionErrors _ _ Exact.evaluation
          (insertProjectionFactors Exact.prior_graph 2%N Exact.landmarks
             Exact.pixels () () None).1 Exact.store) = 2.
Proof.
  split_and!; [reflexivity..|].
  rewrite (proj1 (@reprojectionErrors_after_insert _ _ Exact.evaluation
                    Exact.prior_graph 2%N Exact.landmarks Exact.pixels () ()
                    None Exact.store eq_refl eq_refl)).
  reflexivity.
Defined.

(** X16. [reprojectionErrors] of two graphs joined is the columns of the
    first followed by the columns of the second, and a factor of another
    kind or a null pointer anywhere in the graph changes no column. *)
Theorem reprojectionErrors_app `{Geometry} `{!FactorEvaluation}
    (graph1 graph2 : NonlinearFactorGraph) (f : OtherFactor)
    (values : Values) :
  Matrix_to_cols (reprojectionErrors (graph1 ++ graph2) values) =
    Matrix_to_cols (reprojectionErrors graph1 values) ++
    Matrix_to_cols (reprojectionErrors graph2 values) ∧
  cols (reprojectionErrors (graph1 ++ graph2) values) =
    cols (reprojectionErrors graph1 values) +
    cols (reprojectionErrors graph2 values) ∧
  Matrix_to_cols (reprojectionErrors (graph1 ++ other_factor f :: graph2) values) =
    Matrix_to_cols (reprojectionErrors (graph1 ++ graph2) values) ∧
  Matrix_to_cols (reprojectionErrors (graph1 ++ null_factor :: graph2) values) =
    Matrix_to_cols (reprojectionErrors (graph1 ++ graph2) values).
Proof.
  repeat match goal with
         | |- context [reprojectionErrors ?g values] =>
             let Hc := fresh in let Hl := fresh in
             destruct (reprojectionErrors_cols_list g values) as [Hc Hl];
             rewrite ?Hc, ?Hl; clear Hc Hl
         end.
  rewrite !omap_app. cbn [omap list_omap dynamic_pointer_cast].
  by rewrite fmap_app, length_app.
Qed.

(** ** Local to world coordinates, further *)

Section RetargetMoreFacts.
Context `{Geometry}.

Lemma localToWorld_find_all (local : Values) (base : Pose2) (key : Key) :
  Values_find (localToWorld local base None) key =
    if decide (key ∈ Values_keys local)
    then retarget_value local base key else None.
Proof. unfold localToWorld. by rewrite localToWorld_foldl_find. Qed.

Lemma localToWorld_find_some (local : Values) (base : Pose2)
    (k0 : Key) (keys : list Key) (key : Key) :
  Values_find (localToWorld local base (Some (k0 :: keys))) key =
    if decide (key ∈ k0 :: keys)
    then retarget_value local base key else None.
Proof. unfold localToWorld. by rewrite localToWorld_foldl_find. Qed.

Lemma localToWorld_wf (local : Values) (base : Pose2)
    (user_keys : option (list Key)) :
  Values_wf (localToWorld local base user_keys).
Proof. apply localToWorld_foldl_wf. constructor. Qed.

Lemma retarget_value_entry (local : Values) (base : Pose2) (key : Key) :
  retarget_value local base key = Values_find local key ≫= retarget_entry base.
Proof.
  unfold retarget_value. by destruct (Values_find local key) as [[]|].
Qed.

Lemma retarget_value_absent (local : Values) (base : Pose2) (key : Key) :
  key ∉ Values_keys local → retarget_value local base key = None.
Proof.
  intros Hkey. unfold retarget_value.
  by rewrite (proj2 (Values_find_None local key) Hkey).
Qed.

Lemma retargeted_cons (base : Pose2) k v (rest : Values) :
  omap (λ kv : Key * Value, (kv.1 ,.) <$> retarget_entry base kv.2)
       ((k, v) :: rest) =
    match retarget_entry base v with
    | Some w => (k, w) :: omap (λ kv : Key * Value,
                                  (kv.1 ,.) <$> retarget_entry base kv.2) rest
    | None => omap (λ kv : Key * Value,
                      (kv.1 ,.) <$> retarget_entry base kv.2) rest
    end.
Proof. simpl. by destruct (retarget_entry base v). Qed.

Lemma retargeted_keys_subset (base : Pose2) (local : Values) j :
  j ∈ (omap (λ kv : Key * Value, (kv.1 ,.) <$> retarget_entry base kv.2)
            local).*1 →
  j ∈ local.*1.
Proof.
  intros ([j' w] & -> & Hin)%list_elem_of_fmap.
  apply list_elem_of_omap in Hin as ([k v] & Hin & Hv). simpl in Hv.
  destruct (retarget_entry base v); simplify_eq/=.
  by apply (list_elem_of_fmap_2 fst) in Hin.
Qed.

Lemma retargeted_find (base : Pose2) (local : Values) key :
  NoDup local.*1 →
  Values_find
    (omap (λ kv : Key * Value, (kv.1 ,.) <$> retarget_entry base kv.2) local)
    key =
  Values_find local key ≫= retarget_entry base.
Proof.
  induction local as [|[k v] rest IH]; [done|].
  intros Hnd. rewrite fmap_cons in Hnd. apply NoDup_cons in Hnd as [Hk Hnodup].
  cbn [fst] in Hk. rewrite retargeted_cons. cbn [Values_find].
  destruct (retarget_entry base v) as [w|] eqn:Hv; cbn [Values_find].
  - case_decide; [simpl; by rewrite Hv | by apply IH].
  - case_decide as Hj; [|by apply IH]. subst key. simpl. rewrite Hv.
    apply Values_find_None. intros Hin.
    by apply Hk, (retargeted_keys_subset base).
Qed.

Lemma retargeted_wf (base : Pose2) (local : Values) :
  Values_wf local →
  Values_wf
    (omap (λ kv : Key * Value, (kv.1 ,.) <$> retarget_entry base kv.2) local).
Proof.
  unfold Values_wf. induction local as [|[k v] rest IH]; [done|].
  rewrite fmap_cons. intros [Hrest Hall]%StronglySorted_inv.
  rewrite retargeted_cons. destruct (retarget_entry base v); [|by apply IH].
  rewrite fmap_cons. constructor; [by apply IH|].
  apply Forall_forall. intros j Hj.
  eapply Forall_forall in Hall; [exact Hall|].
  by apply (retargeted_keys_subset base).
Qed.

Lemma retargeted_filter_Pose2 (base : Pose2) (local : Values) :
  Values_filter Pose2
    (omap (λ kv : Key * Value, (kv.1 ,.) <$> retarget_entry base kv.2) local) =
  prod_map id (Pose2_compose base) <$> Values_filter Pose2 local.
Proof.
  induction local as [|[k v] rest IH]; [done|].
  rewrite retargeted_cons, (Values_filter_cons Pose2 k v).
  destruct v; cbn [retarget_entry from_Value Pose2_kind Value_as_Pose2];
    rewrite ?Values_filter_cons; cbn; by rewrite IH.
Qed.

Lemma retargeted_filter_Point2 (base : Pose2) (local : Values) :
  Values_filter Point2
    (omap (λ kv : Key * Value, (kv.1 ,.) <$> retarget_entry base kv.2) local) =
  prod_map id (Pose2_transform_from base) <$> Values_filter Point2 local.
Proof.
  induction local as [|[k v] rest IH]; [done|].
  rewrite retargeted_cons, (Values_filter_cons Point2 k v).
  destruct v; cbn [retarget_entry from_Value Point2_kind Value_as_Point2];
    rewrite ?Values_filter_cons; cbn; by rewrite IH.
Qed.

Lemma retargeted_filter_Point3 (base : Pose2) (local : Values) :
  Values_filter Point3
    (omap (λ kv : Key * Value, (kv.1 ,.) <$> retarget_entry base kv.2) local) =
  [].
Proof.
  induction local as [|[k v] rest IH]; [done|].
  rewrite retargeted_cons.
  destruct v; cbn [retarget_entry]; rewrite ?Values_filter_cons; cbn; by rewrite IH.
Qed.

Lemma retargeted_filter_Pose3 (base : Pose2) (local : Values) :
  Values_filter Pose3
    (omap (λ kv : Key * Value, (kv.1 ,.) <$> retarget_entry base kv.2) local) =
  [].
Proof.
  induction local as [|[k v] rest IH]; [done|].
  rewrite retargeted_cons.
  destruct v; cbn [retarget_entry]; rewrite ?Values_filter_cons; cbn; by rewrite IH.
Qed.

Lemma localToWorld_all_keys (local : Values) (base : Pose2) :
  Values_wf local →
  localToWorld local base None =
    omap (λ kv : Key * Value, (kv.1 ,.) <$> retarget_entry base kv.2) local.
Proof.
  intros Hwf. apply Values_ext.
  - apply localToWorld_wf.
  - by apply retargeted_wf.
  - intros key. rewrite localToWorld_find_all, retargeted_find
      by (by apply Values_wf_NoDup).
    case_decide as Hkey; [apply retarget_value_entry|].
    by rewrite <- retarget_value_entry, retarget_value_absent.
Qed.
End RetargetMoreFacts.

(** X17. [localToWorld] depends on the requested keys as a set: two key
    lists with the same elements give the same store, whatever the order
    of the keys and however often a key is repeated. *)
Theorem localToWorld_key_set `{Geometry} (local : Values) (base : Pose2)
    (keys1 keys2 : list Key) :
  (∀ k, k ∈ keys1 ↔ k ∈ keys2) →
  localToWorld local base (Some keys1) = localToWorld local base (Some keys2).
Proof.
  intros Hsame.
  destruct keys1 as [|k1 keys1], keys2 as [|k2 keys2]; [done| | |].
  - exfalso. eapply elem_of_nil, Hsame. left.
  - exfalso. eapply elem_of_nil, Hsame. left.
  - apply Values_ext; [apply localToWorld_wf..|].
    intros key. rewrite !localToWorld_find_some.
    destruct (decide (key ∈ k1 :: keys1)) as [Hin|Hnin].
    + by rewrite decide_True by (by apply Hsame).
    + rewrite decide_False; [done|]. intros Hin. by apply Hnin, Hsame.
Qed.

Lemma localToWorld_key_set_witness :
  (∀ k, k ∈ Exact.requested_keys ↔ k ∈ Exact.requested_keys_sorted) ∧
  localToWorld Exact.store Exact.base (Some Exact.requested_keys_sorted) =
    Exact.store_in_world.
Proof.
  assert (∀ k, k ∈ Exact.requested_keys ↔ k ∈ Exact.requested_keys_sorted)
    as Hsame.
  { intros k. unfold Exact.requested_keys, Exact.requested_keys_sorted.
    rewrite !elem_of_cons, !elem_of_nil. tauto. }
  split; [done|].
  rewrite <- (localToWorld_key_set Exact.store Exact.base
                Exact.requested_keys Exact.requested_keys_sorted Hsame).
  reflexivity.
Defined.

(** X18. A key list that covers every key of the store gives the store
    that omitting the list gives; so does the empty key list. Requested
    keys that the store lacks add nothing. *)
Theorem localToWorld_covering_keys `{Geometry} (local : Values)
    (base : Pose2) (keys : list Key) :
  (∀ k, k ∈ Values_keys local → k ∈ keys) →
  localToWorld local base (Some keys) = localToWorld local base None ∧
  localToWorld local base (Some []) = localToWorld local base None.
Proof.
  intros Hcover. split; [|done].
  destruct keys as [|k0 keys]; [done|].
  apply Values_ext; [apply localToWorld_wf..|].
  intros key. rewrite localToWorld_find_some, localToWorld_find_all.
  destruct (decide (key ∈ Values_keys local)) as [Hin|Hnin].
  - by rewrite decide_True by (by apply Hcover).
  - rewrite retarget_value_absent by done. by case_decide.
Qed.

Lemma localToWorld_covering_keys_witness :
  (∀ k, k ∈ Values_keys Exact.store → k ∈ Exact.many_keys) ∧
  localToWorld Exact.store Exact.base (Some Exact.many_keys) =
    localToWorld Exact.store Exact.base None.
Proof.
  assert (∀ k, k ∈ Values_keys Exact.store → k ∈ Exact.many_keys) as Hcover.
  { intros k. unfold Exact.many_keys. cbn. rewrite !elem_of_cons, !elem_of_nil.
    tauto. }
  split; [done|].
  exact (proj1 (localToWorld_covering_keys Exact.store Exact.base
                  Exact.many_keys Hcover)).
Defined.

(** X19. Without a key list, [localToWorld] of a store with ascending
    keys is that store with every 2-D pose composed with the base pose,
    every 2-D point transformed from the base pose, and every other entry
    dropped, in the same key order. So [extractPose2] and [extractPoint2]
    of the result have the rows of the composed poses and of the
    transformed points of the store, and [extractPoint3] and [extractPose3]
    have no row. *)
Theorem localToWorld_then_extract `{Geometry} (local : Values) (base : Pose2) :
  Values_wf local →
  let world := localToWorld local base None in
  world = omap (λ kv : Key * Value, (kv.1 ,.) <$> retarget_entry base kv.2)
               local ∧
  Matrix_to_rows (extractPose2 world) =
    (λ p, Pose2_layout (Pose2_compose base p)) <$>
      (Values_filter Pose2 local).*2 ∧
  Matrix_to_rows (extractPoint2 world) =
    (λ p, Point2_layout (Pose2_transform_from base p)) <$>
      (Values_filter Point2 local).*2 ∧
  rows (extractPoint3 world) = 0 ∧
  rows (extractPose3 world) = 0.
Proof.
  intros Hwf world. subst world. rewrite localToWorld_all_keys by done.
  split_and!; [done| | | |].
  - destruct (extractPose2_rows
                (omap (λ kv : Key * Value,
                         (kv.1 ,.) <$> retarget_entry base kv.2) local))
      as (_ & _ & ->).
    rewrite retargeted_filter_Pose2, <- !list_fmap_compose.
    by apply list_fmap_ext; intros ? [].
  - destruct (extractPoint2_rows
                (omap (λ kv : Key * Value,
                         (kv.1 ,.) <$> retarget_entry base kv.2) local))
      as (_ & _ & ->).
    rewrite retargeted_filter_Point2, <- !list_fmap_compose.
    by apply list_fmap_ext; intros ? [].
  - destruct (extractPoint3_rows
                (omap (λ kv : Key * Value,
                         (kv.1 ,.) <$> retarget_entry base kv.2) local))
      as (-> & _).
    by rewrite retargeted_filter_Point3.
  - destruct (extractPose3_rows
                (omap (λ kv : Key * Value,
                         (kv.1 ,.) <$> retarget_entry base kv.2) local))
      as (-> & _).
    by rewrite retargeted_filter_Pose3.
Qed.

Lemma localToWorld_then_extract_witness :
  Values_wf Exact.store ∧
  Matrix_to_rows (extractPoint2 (localToWorld Exact.store Exact.base None)) =
    [[11; 13]; [31; 33]; [51; 53]]%Z.
Proof.
  assert (Values_wf Exact.store) as Hwf.
  { unfold Values_wf. simpl. repeat constructor; done. }
  split; [done|].
  rewrite (proj1 (proj2 (proj2 (localToWorld_then_extract Exact.store
                                  Exact.base Hwf)))).
  reflexivity.
Defined.

(** ** Perturbation followed by extraction *)

Section PerturbExtractFacts.
Context `{Geometry} `{!Sampling}.

Lemma fmap_zip_with_compose {A B C D} (g : C → D) (f : A → B → C)
    (l : list A) (k : list B) :
  g <$> zip_with f l k = zip_with (λ a b, g (f a b)) l k.
Proof.
  revert k. induction l as [|a l IH]; intros [|b k]; [done..|].
  cbn [zip_with fmap list_fmap]. f_equal. apply IH.
Qed.

Lemma Sampler_draws_length (n : nat) (sampler : Sampler) :
  length (Sampler_draws n sampler) = n.
Proof.
  revert sampler. induction n as [|n IH]; intros sampler; [done|].
  cbn [Sampler_draws]. destruct (Sampler_sample sampler) as [noise sampler'].
  cbn [length]. by rewrite IH.
Qed.

(** With a draw for each of them, the entries of type [T] of a perturbed
    store are those of the store, each retracted by its draw. *)
Lemma retract_entries_filter_same T `{!ValueKind T} (retract : T → Vector → T)
    (values : Values) (draws : list Vector) :
  length (Values_filter T values) ≤ length draws →
  (Values_filter T (retract_entries T retract values draws)).*2 =
    zip_with retract (Values_filter T values).*2 draws.
Proof.
  revert draws. induction values as [|[k v] rest IH]; intros draws Hlen;
    [done|].
  cbn [retract_entries]. rewrite (Values_filter_cons T k v) in Hlen |- *.
  destruct (from_Value v) as [t|] eqn:Hv.
  - destruct draws as [|noise draws]; [cbn in Hlen; lia|].
    rewrite Values_filter_cons, from_to_Value. cbn [fmap list_fmap zip_with snd].
    f_equal. apply IH. cbn [length] in Hlen. lia.
  - rewrite Values_filter_cons, Hv. by apply IH.
Qed.
End PerturbExtractFacts.

(** X20. Perturbation followed by extraction, on a store with ascending
    keys: after [perturbPoint2], row i of [extractPoint2] is the i-th 2-D
    point of the store (in key order) retracted by the i-th draw of the
    sampler, and the rows of [extractPoint3], [extractPose2] and
    [extractPose3] are what they were. *)
Theorem perturbPoint2_then_extract `{Geometry} `{!Sampling} (values : Values)
    (sigma : double) (seed : option Z) :
  Values_wf values →
  let values' := (perturbPoint2 values sigma seed).1 in
  Matrix_to_rows (extractPoint2 values') =
    zip_with (λ p noise, Point2_layout (Point2_retract p noise))
      (Values_filter Point2 values).*2
      (Sampler_draws (length (Values_filter Point2 values))
         (Sampler_new (Isotropic_Sigma 2 sigma) (default 42%Z seed))) ∧
  Matrix_to_rows (extractPoint3 values') = Matrix_to_rows (extractPoint3 values) ∧
  Matrix_to_rows (extractPose2 values') = Matrix_to_rows (extractPose2 values) ∧
  Matrix_to_rows (extractPose3 values') = Matrix_to_rows (extractPose3 values).
Proof.
  intros Hwf values'. subst values'. rewrite perturbPoint2_draws by done.
  cbn [fst].
  set (draws := Sampler_draws _ _).
  set (values' := retract_entries Point2 Point2_retract values draws).
  destruct (extractPoint2_rows values') as (_ & _ & ->).
  destruct (extractPoint3_rows values') as (_ & _ & ->).
  destruct (extractPose2_rows values') as (_ & _ & ->).
  destruct (extractPose3_rows values') as (_ & _ & ->).
  destruct (extractPoint3_rows values) as (_ & _ & ->).
  destruct (extractPose2_rows values) as (_ & _ & ->).
  destruct (extractPose3_rows values) as (_ & _ & ->).
  unfold values'.
  rewrite (retract_entries_filter_other Point2 Point3),
    (retract_entries_filter_other Point2 Pose2),
    (retract_entries_filter_other Point2 Pose3) by done.
  split_and!; [|done..].
  rewrite retract_entries_filter_same
    by (unfold draws, perturbPoint2_model; by rewrite Sampler_draws_length).
  by rewrite fmap_zip_with_compose.
Qed.

Lemma perturbPoint2_then_extract_witness :
  Values_wf Exact.store ∧
  Matrix_to_rows
    (extractPoint2
       (@perturbPoint2 _ _ Exact.sampling Exact.store 2%Z (Some 7%Z)).1) =
    [[4; 5]; [34; 35]; [46; 47]]%Z.
Proof.
  assert (Values_wf Exact.store) as Hwf.
  { unfold Values_wf. simpl. repeat constructor; done. }
  split; [done|].
  rewrite (proj1 (@perturbPoint2_then_extract _ _ Exact.sampling Exact.store
                    2%Z (Some 7%Z) Hwf)).
  reflexivity.
Defined.
